(** * The opensea/sudoswap arbitrage strategy of mev

    A shallow embedding of [src/strategies/openseaSudoswapArb.ts] and the
    properties its specification states about it.

    The strategy is a closure: a factory [openseaSudoswapArb] that owns two
    arrays ([sudoPools], [poolBids]), defines a handful of asynchronous
    functions over them and returns a record of entry points.  The embedding
    passes the closure's state explicitly, models a promise by its outcome
    (fulfilled or rejected) and keeps a trace of the calls that leave the
    closure.

    The second part embeds [src/lib/functions/references.ts]: the constant
    prefix derived from a contract name, and the two generators of reference
    files with the calls they make to the file system, the node and the
    logger. *)

From Stdlib Require Import ZArith List Ascii String Bool Arith Lia.
Import ListNotations.

Local Open Scope string_scope.
Local Open Scope Z_scope.

(* ===================================================================== *)
(** ** JavaScript values, as far as the strategy looks at them *)
(* ===================================================================== *)

Module Js.

(** The event handed to [processEvent] is inspected with [typeof] only, so
    a value is modelled by its kind and a payload. *)
#[warnings="-register-all"]
Inductive Value : Type :=
| Undefined
| Null
| Boolean (b : bool)
| Number (n : Z)
| BigInt (n : Z)
| String (s : string)
| Symbol (description : string)
| Function (name : string)
| Array (items : list Value)
| Object (fields : list (string * Value)).

(** The [typeof] operator (ECMAScript, table of the typeof operator). *)
Definition typeof (v : Value) : string :=
  match v with
  | Undefined => "undefined"
  | Null => "object"
  | Boolean _ => "boolean"
  | Number _ => "number"
  | BigInt _ => "bigint"
  | String _ => "string"
  | Symbol _ => "symbol"
  | Function _ => "function"
  | Array _ => "object"
  | Object _ => "object"
  end.

(** The eight strings [typeof] can produce. *)
Definition typeTags : list string :=
  ["undefined"; "object"; "boolean"; "number"; "bigint"; "string";
   "symbol"; "function"].

(** Property lookup in an object literal: the first binding of the key. *)
Fixpoint get {A : Type} (key : string) (fields : list (string * A)) : option A :=
  match fields with
  | [] => None
  | (k, v) :: rest => if String.eqb k key then Some v else get key rest
  end.

End Js.

(** [AddressLike] of ethers: an address is kept as its hexadecimal string. *)
Definition AddressLike := string.

(* ===================================================================== *)
(** ** The data the two arrays hold *)
(* ===================================================================== *)

(** Modelled from the spec: the element type of [sudoPools].  The source
    declares [const sudoPools = []] with no element type; the specification
    (section 3, PoolState) gives a pool an address, the collection it trades
    and the last block its quote reflects. *)
Module Pool.
Record t : Type := Build {
  address : AddressLike;
  nftCollection : AddressLike;
  lastSyncedBlock : Z
}.
End Pool.

(** Modelled from the spec: the element type of [poolBids].  The source
    declares [const poolBids = []]; the specification calls a quote a price
    with fee parameters. *)
Module Quote.
Record t : Type := Build {
  price : Z;
  fee : Z
}.
End Quote.

(** The mutable state of the closure: the two arrays of lines 18-19.  The
    other locals of the factory ([pairFactory], [stateOverride], [address],
    [quoter], [arbContract], all [undefined], and [bidPercentage = 0]) are
    constants no function reads. *)
Record StrategyState : Type := {
  sudoPools : list Pool.t;
  poolBids : list (AddressLike * Quote.t)
}.

(** [const sudoPools = []] and [const poolBids = []]. *)
Definition initialState : StrategyState :=
  {| sudoPools := []; poolBids := [] |}.

Definition PAIR_FACTORY_DEPLOYMENT_BLOCK : Z := 14650730.
Definition PAIR_FACTORY_ADDRESS : AddressLike :=
  "0x1F98431c8aD98523631AE4a59f267346ea31F984".
Definition POOL_EVENT_SIGNATURES : list string := [].
Definition bidPercentage : Z := 0.

(* ===================================================================== *)
(** ** Promises, the provider and the trace *)
(* ===================================================================== *)

(** How an awaited promise settles. *)
Inductive Outcome (A : Type) : Type :=
| Fulfilled (value : A)
| Rejected (reason : string).
Arguments Fulfilled {A} value.
Arguments Rejected {A} reason.

Definition isFulfilled {A : Type} (o : Outcome A) : bool :=
  match o with Fulfilled _ => true | Rejected _ => false end.

(** What the trace records: the one request sent to the provider, and (as
    ghost entries) the two calls of the chunk loop's body. *)
Inductive Effect : Type :=
| RpcGetBlockNumber
| CallGetQuotesForPools (pools : list AddressLike)
| CallUpdateInternalPoolState.

Definition isExternal (e : Effect) : bool :=
  match e with RpcGetBlockNumber => true | _ => false end.

(** The requests that left the closure. *)
Definition external (tr : list Effect) : list Effect := filter isExternal tr.

(** The [WebSocketProvider] the factory receives as [client].  Only
    [getBlockNumber] is used; [respond k] is how the provider settles the
    request sent after [k] earlier ones, so a provider may fail once and
    answer later. *)
Record WebSocketProvider : Type := {
  respond : nat -> Outcome Z
}.

Record Env : Type := {
  strategy : StrategyState;
  trace : list Effect
}.

Definition freshEnv : Env := {| strategy := initialState; trace := [] |}.

Definition emit (e : Effect) (env : Env) : Env :=
  {| strategy := strategy env; trace := trace env ++ [e] |}.

(** An asynchronous computation over the closure's state. *)
Definition Async (A : Type) : Type := Env -> Outcome A * Env.

Definition ret {A : Type} (a : A) : Async A := fun env => (Fulfilled a, env).

(** [await]: a rejection is rethrown to the caller, and what was done to the
    state before it stays done. *)
Definition await {A B : Type} (c : Async A) (k : A -> Async B) : Async B :=
  fun env =>
    match c env with
    | (Fulfilled a, env') => k a env'
    | (Rejected r, env') => (Rejected r, env')
    end.

Declare Scope async_scope.
Delimit Scope async_scope with async.
Notation "x <- c ;; k" := (await c (fun x => k))
  (at level 100, c at next level, right associativity) : async_scope.
Notation "c ;;; k" := (await c (fun _ => k))
  (at level 100, right associativity) : async_scope.
Local Open Scope async_scope.

(** [client.getBlockNumber()]. *)
Definition getBlockNumber (client : WebSocketProvider) : Async Z :=
  fun env =>
    (respond client (List.length (external (trace env))),
     emit RpcGetBlockNumber env).

(* ===================================================================== *)
(** ** The functions of the closure *)
(* ===================================================================== *)

(** Modelled from the spec: the Action a strategy may return (section 3,
    SubmitTransactionAction).  The source has no Action type; its comment
    (lines 46-50) names [SubmitTx] as the only variant.  [pool] is the pool
    the transaction sells into. *)
Module Action.
Record t : Type := SubmitTransactionAction {
  to : AddressLike;
  pool : AddressLike;
  orderReference : string;
  value : Z;
  deadlineBlock : Z
}.
End Action.

(** Lines 89-92: [async () => { const quotes = [] }].  The local array is
    dropped and the promise fulfils with no value. *)
Definition getQuotesForPools (pools : list AddressLike) : Async unit :=
  fun env => (Fulfilled tt, emit (CallGetQuotesForPools pools) env).

(** Lines 94-102. *)
Definition getTouchedPools (fromBlock toBlock : Z) : Async (list AddressLike) :=
  ret [].

(** Lines 104-112. *)
Definition getNewPools (fromBlock toBlock : Z) : Async (list AddressLike) :=
  ret [].

(** Lines 115-118: [() => { }], the argument is not even bound. *)
Definition updateInternalPoolState (poolsAndQuotes : unit) : Async unit :=
  fun env => (Fulfilled tt, emit CallUpdateInternalPoolState env).

Definition chunkSize : nat := 200.

(** [poolAddresses.slice(i, j)] for [0 <= i <= j]. *)
Definition slice {A : Type} (i j : nat) (l : list A) : list A :=
  firstn (j - i) (skipn i l).

(** Lines 32-36, the loop
    [for (let i = 0; i < poolAddresses.length; i += chunkSize)].
    [fuel] bounds the number of iterations; see [chunkLoop_fuel]. *)
Fixpoint chunkLoop (fuel : nat) (i : nat) (poolAddresses : list AddressLike)
  : Async unit :=
  match fuel with
  | O => ret tt
  | S fuel' =>
      if (i <? List.length poolAddresses)%nat then
        let addresses := slice i (i + chunkSize) poolAddresses in
        quotes <- getQuotesForPools addresses ;;
        updateInternalPoolState quotes ;;;
        chunkLoop fuel' (i + chunkSize) poolAddresses
      else ret tt
  end.

(** What the loop adds to the trace, and the chunks it asks quotes for. *)
Fixpoint chunkEffects (fuel : nat) (i : nat) (poolAddresses : list AddressLike)
  : list Effect :=
  match fuel with
  | O => []
  | S fuel' =>
      if (i <? List.length poolAddresses)%nat then
        CallGetQuotesForPools (slice i (i + chunkSize) poolAddresses)
          :: CallUpdateInternalPoolState
          :: chunkEffects fuel' (i + chunkSize) poolAddresses
      else []
  end.

Fixpoint chunksOf (tr : list Effect) : list (list AddressLike) :=
  match tr with
  | [] => []
  | CallGetQuotesForPools pools :: rest => pools :: chunksOf rest
  | _ :: rest => chunksOf rest
  end.

(** Lines 21-37. *)
Definition syncState (client : WebSocketProvider) : Async unit :=
  let fromBlock := PAIR_FACTORY_DEPLOYMENT_BLOCK in
  toBlock <- getBlockNumber client ;;
  poolAddresses <- getNewPools fromBlock toBlock ;;
  chunkLoop (List.length poolAddresses) 0 poolAddresses.

(** Lines 56-62: a [switch] on [typeof event] with the single, empty clause
    [case 'NewBlock':] and no default. *)
Definition processEvent (event : Js.Value) : Async (option Action.t) :=
  if String.eqb (Js.typeof event) "NewBlock"
  then ret None
  else ret None.

(** Lines 66-72: the body holds comments only. *)
Definition processOrderEvent (event : Js.Value) : Async (option Action.t) :=
  ret None.

(** Lines 75-79: the body holds comments only. *)
Definition processNewBlockEvent (event : Js.Value) : Async (option Action.t) :=
  ret None.

(** Lines 82-86: the body holds comments only. *)
Definition buildArbTransaction : Async (option Action.t) :=
  ret None.

(** A member of the record the factory returns. *)
Inductive Member : Type :=
| SyncMember (f : Async unit)
| EventMember (f : Js.Value -> Async (option Action.t)).

(** Line 120: [return { syncState }]. *)
Definition openseaSudoswapArb (client : WebSocketProvider)
  : list (string * Member) :=
  [("syncState", SyncMember (syncState client))].

(* ===================================================================== *)
(** ** The events and the vocabulary of the specification *)
(* ===================================================================== *)

(** Modelled from the spec: ListingEvent (section 3).  The source takes the
    event as an untyped parameter; [toJs] is the object the handler gets. *)
Module Listing.
Record t : Type := Build {
  nftCollection : AddressLike;
  tokenId : Z;
  paymentToken : AddressLike;
  price : Z;
  chain : string;
  rawOrderReference : string
}.

Definition toJs (l : t) : Js.Value :=
  Js.Object
    [("nftCollection", Js.String (nftCollection l));
     ("tokenId", Js.BigInt (tokenId l));
     ("paymentToken", Js.String (paymentToken l));
     ("price", Js.BigInt (price l));
     ("chain", Js.String (chain l));
     ("rawOrderReference", Js.String (rawOrderReference l))].
End Listing.

(** Modelled from the spec: BlockEvent (section 3). *)
Module Block.
Record t : Type := Build {
  blockNumber : Z;
  newPoolAddresses : list AddressLike;
  touchedPoolAddresses : list AddressLike
}.

Definition toJs (b : t) : Js.Value :=
  Js.Object
    [("blockNumber", Js.Number (blockNumber b));
     ("newPoolAddresses", Js.Array (map Js.String (newPoolAddresses b)));
     ("touchedPoolAddresses", Js.Array (map Js.String (touchedPoolAddresses b)))].
End Block.

(** The quote of a pool: its entry in [poolBids], if any.  The comment of
    [updateInternalPoolState] keeps a pool without a quote out of both
    arrays; a pool of [sudoPools] with no entry in [poolBids] is the
    specification's pool with an absent [currentBid]. *)
Definition currentBid (st : StrategyState) (p : Pool.t) : option Quote.t :=
  Js.get (Pool.address p) (poolBids st).

Definition hasQuote (st : StrategyState) (p : Pool.t) : bool :=
  match currentBid st p with Some _ => true | None => false end.

Definition bidPrice (st : StrategyState) (p : Pool.t) : Z :=
  match currentBid st p with Some q => Quote.price q | None => 0 end.

(** The pools that trade the listing's collection. *)
Definition matchingPools (st : StrategyState) (l : Listing.t) : list Pool.t :=
  filter (fun p => String.eqb (Pool.nftCollection p) (Listing.nftCollection l))
         (sudoPools st).

(** Those of them that have a quote: the candidates of a match. *)
Definition quotedPools (st : StrategyState) (l : Listing.t) : list Pool.t :=
  filter (hasQuote st) (matchingPools st l).

(** The candidates that bid strictly more than the listing costs. *)
Definition profitablePools (fees : Z) (st : StrategyState) (l : Listing.t)
  : list Pool.t :=
  filter (fun p => Listing.price l + fees <? bidPrice st p) (quotedPools st l).

(** What a handler's promise delivered: the Action, and the pool it sells
    into. *)
Definition producedAction (o : Outcome (option Action.t)) : option Action.t :=
  match o with Fulfilled (Some a) => Some a | _ => None end.

Definition selectedPool (o : Outcome (option Action.t)) : option AddressLike :=
  option_map Action.pool (producedAction o).

(** The pool addresses of the snapshot: the keys of the map. *)
Definition poolKeys (st : StrategyState) : list AddressLike :=
  map Pool.address (sudoPools st).

(** The entry points and handlers a caller may run against the closure. *)
Inductive Operation : Type :=
| OpSyncState (client : WebSocketProvider)
| OpProcessEvent (event : Js.Value)
| OpProcessOrderEvent (event : Js.Value)
| OpProcessNewBlockEvent (event : Js.Value).

Definition perform (op : Operation) (env : Env) : Env :=
  match op with
  | OpSyncState client => snd (syncState client env)
  | OpProcessEvent event => snd (processEvent event env)
  | OpProcessOrderEvent event => snd (processOrderEvent event env)
  | OpProcessNewBlockEvent event => snd (processNewBlockEvent event env)
  end.

Definition performAll (ops : list Operation) (env : Env) : Env :=
  fold_left (fun e op => perform op e) ops env.

(** The environments the program can be in: the fresh closure, and what any
    operation makes of a reachable one. *)
Inductive reachable : Env -> Prop :=
| reachable_fresh : reachable freshEnv
| reachable_step op env : reachable env -> reachable (perform op env).

(** Delivery of a sequence of BlockEvents through a handler. *)
Definition deliver (handler : Js.Value -> Async (option Action.t))
  (events : list Block.t) (env : Env) : Env :=
  fold_left (fun e b => snd (handler (Block.toJs b) e)) events env.

(** The largest block number of a sequence of BlockEvents. *)
Definition maxBlockNumber (events : list Block.t) : option Z :=
  match events with
  | [] => None
  | b :: bs => Some (fold_left Z.max (map Block.blockNumber bs) (Block.blockNumber b))
  end.

(** The snapshot consistency invariant, for a reading [headBlock] of the
    head block off the strategy's state (the closure has no variable of
    that name). *)
Definition consistent (headBlock : StrategyState -> Z) (st : StrategyState)
  : Prop :=
  Forall (fun p => Pool.lastSyncedBlock p <= headBlock st) (sudoPools st).

(** A provider whose first request times out and which answers from the
    second request on. *)
Definition flakyClient : WebSocketProvider :=
  {| respond := fun k =>
       match k with
       | O => Rejected "timeout"
       | S _ => Fulfilled 17000000
       end |}.

(** A provider that always answers with the same head. *)
Definition steadyClient (head : Z) : WebSocketProvider :=
  {| respond := fun _ => Fulfilled head |}.

(* ===================================================================== *)
(** ** Sample data *)
(* ===================================================================== *)

Definition poolA : Pool.t :=
  {| Pool.address := "0xA11"; Pool.nftCollection := "0xC01";
     Pool.lastSyncedBlock := 10 |}.

Definition poolB : Pool.t :=
  {| Pool.address := "0xB22"; Pool.nftCollection := "0xC01";
     Pool.lastSyncedBlock := 20 |}.

Definition bid100 : Quote.t := {| Quote.price := 100; Quote.fee := 0 |}.

(** Two pools for collection 0xC01, both bidding 100; [poolB] is fresher. *)
Definition tiedState : StrategyState :=
  {| sudoPools := [poolA; poolB];
     poolBids := [("0xA11", bid100); ("0xB22", bid100)] |}.

(** One pool for collection 0xC01 and no quote for it. *)
Definition unquotedState : StrategyState :=
  {| sudoPools := [poolA]; poolBids := [] |}.

(** A listing of collection 0xC01 at price 10. *)
Definition listing10 : Listing.t :=
  {| Listing.nftCollection := "0xC01"; Listing.tokenId := 7;
     Listing.paymentToken := "0x0"; Listing.price := 10;
     Listing.chain := "ethereum"; Listing.rawOrderReference := "order-1" |}.

Definition blockAt (n : Z) : Block.t :=
  {| Block.blockNumber := n; Block.newPoolAddresses := [];
     Block.touchedPoolAddresses := [] |}.

Definition envOf (st : StrategyState) : Env := {| strategy := st; trace := [] |}.

Definition isSync (op : Operation) : bool :=
  match op with OpSyncState _ => true | _ => false end.

(* ===================================================================== *)
(** ** Reference files: src/lib/functions/references.ts *)
(* ===================================================================== *)

Module References.

Local Open Scope list_scope.
Local Open Scope nat_scope.

(** A JavaScript string is the sequence of its code units.  The functions
    below compare code units and cut sequences of them; only [toUpperCase]
    and the digit class look inside a unit, and they are modelled on the
    ASCII range (see [isAscii]). *)
Definition JsString : Type := list ascii.

(** A string literal of the source. *)
Definition lit (s : string) : JsString := list_ascii_of_string s.

Definition isAscii (c : ascii) : bool := nat_of_ascii c <? 128.
Definition isLower (c : ascii) : bool :=
  (97 <=? nat_of_ascii c) && (nat_of_ascii c <=? 122).
Definition isUpper (c : ascii) : bool :=
  (65 <=? nat_of_ascii c) && (nat_of_ascii c <=? 90).
(** The class [[0-9]] of the regular expression. *)
Definition isDigit (c : ascii) : bool :=
  (48 <=? nat_of_ascii c) && (nat_of_ascii c <=? 57).
Definition isAlnum (c : ascii) : bool := isLower c || isUpper c || isDigit c.

(** The code units other than the underscore, and other than the underscore
    and the space. *)
Definition notUnderscore (c : ascii) : bool := negb (Ascii.eqb c "_").
Definition isLetterOrOther (c : ascii) : bool :=
  negb (Ascii.eqb c "_") && negb (Ascii.eqb c " ").

(** [letter.toUpperCase()] for one ASCII code unit. *)
Definition toUpperCase1 (c : ascii) : ascii :=
  if isLower c then ascii_of_nat (nat_of_ascii c - 32) else c.

(** [s.toUpperCase()], for a string of ASCII code units. *)
Definition toUpperCase (s : JsString) : JsString := map toUpperCase1 s.

(** Lines 35-43: [name.split("").map((letter, index) => ...).join("")].  The
    first letter is kept; a later letter that equals its own upper case gets
    an underscore in front. *)
Fixpoint markWords (index : nat) (letters : JsString) : JsString :=
  match letters with
  | [] => []
  | letter :: rest =>
      (if index =? 0 then [letter]
       else if Ascii.eqb letter (toUpperCase1 letter) then ["_"%char; letter]
       else [letter])
      ++ markWords (S index) rest
  end.

(** Line 45: [.replace(/ /g, "_")]. *)
Definition replaceSpaces (s : JsString) : JsString :=
  map (fun c => if Ascii.eqb c " " then "_"%char else c) s.

(** Line 46: [.replace(/_([0-9])/g, "$1")].  The matches are taken from left
    to right and do not overlap. *)
Fixpoint joinDigits (s : JsString) : JsString :=
  match s with
  | [] => []
  | c :: rest =>
      match rest with
      | d :: rest' =>
          if Ascii.eqb c "_" && isDigit d then d :: joinDigits rest'
          else c :: joinDigits rest
      | [] => [c]
      end
  end.

(** Lines 34-46: [UniswapV3Factory] becomes [UNISWAP_V3_FACTORY]. *)
Definition bigName (name : JsString) : JsString :=
  joinDigits (replaceSpaces (toUpperCase (markWords 0 name))).

(** The name in upper case with an underscore before every capital letter
    after the first code unit: what [bigName] is meant to produce. *)
Fixpoint upperSnake (index : nat) (name : JsString) : JsString :=
  match name with
  | [] => []
  | c :: rest =>
      (if negb (index =? 0) && isUpper c then ["_"%char] else [])
      ++ toUpperCase1 c :: upperSnake (S index) rest
  end.

(** [s.startsWith(prefix)] and [s.endsWith(suffix)]. *)
Fixpoint startsWith (prefix s : JsString) : bool :=
  match prefix, s with
  | [], _ => true
  | p :: prefix', c :: s' => Ascii.eqb p c && startsWith prefix' s'
  | _ :: _, [] => false
  end.

Definition endsWith (suffix s : JsString) : bool :=
  startsWith (rev suffix) (rev s).

(** [s.replace(pattern, replacement)] for a string pattern and a replacement
    without [$]: the first occurrence is replaced, the rest of the string is
    kept. *)
Fixpoint replaceFirst (pattern replacement s : JsString) : JsString :=
  if startsWith pattern s then replacement ++ skipn (List.length pattern) s
  else match s with
       | [] => []
       | c :: rest => c :: replaceFirst pattern replacement rest
       end.

(** Whether [pattern] occurs in [s]. *)
Fixpoint includes (pattern s : JsString) : bool :=
  startsWith pattern s ||
  match s with
  | [] => false
  | _ :: rest => includes pattern rest
  end.

(** [s.split(separator)] for a separator of one code unit: never empty. *)
Fixpoint split (separator : ascii) (s : JsString) : list JsString :=
  match s with
  | [] => [[]]
  | c :: rest =>
      if Ascii.eqb c separator then [] :: split separator rest
      else match split separator rest with
           | first :: others => (c :: first) :: others
           | [] => [[c]]
           end
  end.

(** [parts.join(separator)]. *)
Fixpoint join (separator : ascii) (parts : list JsString) : JsString :=
  match parts with
  | [] => []
  | part :: rest =>
      match rest with
      | [] => part
      | _ :: _ => part ++ separator :: join separator rest
      end
  end.

(** What a call that may throw does. *)
Inductive Result (A : Type) : Type :=
| Ok (value : A)
| Throws (error : JsString).
Arguments Ok {A} value.
Arguments Throws {A} error.

(** The calls that leave the module: the file system, the node's RPC and the
    logger. *)
Inductive Call : Type :=
| ExistsSync (path : JsString)
| MkdirSync (path : JsString)
| WriteFileSync (path content : JsString)
| LoggerInfo (message : JsString)
| LoggerError (message : JsString).

(** The world around a call of [generateDynamicReference]: what exists on
    disk, which call to the file system throws (and the [toString()] of what
    it throws), and what [Object.entries(JSON.parse(source).sources)] gives
    for a source, each entry with its [content]. *)
Record World : Type := {
  existsSync : JsString -> bool;
  throws : Call -> option JsString;
  sourcesOf : JsString -> Result (list (JsString * JsString))
}.

Record Network : Type := { key : JsString; rpc : JsString }.

Record DynamicReference : Type := {
  network : Network;
  name : JsString;
  source : JsString
}.

(** Lines 19 and 135: [`./src/references/${network.key}/${name}`]. *)
Definition referencePathOf (net : Network) (name : JsString) : JsString :=
  lit "./src/references/" ++ key net ++ lit "/" ++ name.

(** Lines 169-173: the directory of a source key. *)
Definition directoryOf (referencePath sourceKey : JsString) : JsString :=
  referencePath ++ lit "/"
  ++ join "/" (removelast (split "/" (replaceFirst (lit "./") [] sourceKey))).

(** Line 175: [sourceKey.replace("./", "").split("/").slice(-1)[0]]. *)
Definition filenameOf (sourceKey : JsString) : JsString :=
  last (split "/" (replaceFirst (lit "./") [] sourceKey)) [].

(** Lines 168-182: the body of [forEach], entry after entry; a call that
    throws ends the iteration with its error. *)
Fixpoint forEachSource (w : World) (referencePath : JsString)
  (entries : list (JsString * JsString)) : list Call * option JsString :=
  match entries with
  | [] => ([], None)
  | (sourceKey, content) :: rest =>
      let directory := directoryOf referencePath sourceKey in
      let filename := filenameOf sourceKey in
      let mkdir := MkdirSync directory in
      match throws w mkdir with
      | Some error => ([mkdir], Some error)
      | None =>
          let write := WriteFileSync (directory ++ lit "/" ++ filename) content in
          match throws w write with
          | Some error => ([mkdir; write], Some error)
          | None =>
              let (calls, error) := forEachSource w referencePath rest in
              (mkdir :: write
                 :: LoggerInfo (lit "Generated " ++ directory ++ lit "/" ++ filename)
                 :: calls,
               error)
          end
      end
  end.

(** Lines 146-147: the two replacements made on the source. *)
Definition cleanSource (source : JsString) : JsString :=
  replaceFirst (lit "}}") (lit "}") (replaceFirst (lit "{{") (lit "{") source).

(** Lines 184-186. *)
Definition failedToParse (name error : JsString) : JsString :=
  lit "Failed to parse the source code for " ++ name ++ lit ": " ++ error.

(** Lines 132-188.  The result is the trace of the calls made. *)
Definition generateDynamicReference (w : World) (reference : DynamicReference)
  : list Call :=
  let referencePath := referencePathOf (network reference) (name reference) in
  let probe := ExistsSync (referencePath ++ lit "/contracts") in
  if existsSync w (referencePath ++ lit "/contracts") then
    [probe;
     LoggerInfo (lit "Reference implementation contracts for "
                 ++ name reference ++ lit " already exist.")]
  else
    let source := cleanSource (source reference) in
    let contractSources :=
      if startsWith (lit "{") source && endsWith (lit "}") source
      then sourcesOf w source
      else Ok [(lit "contracts/" ++ name reference ++ lit ".sol", source)] in
    match contractSources with
    | Throws error => [probe; LoggerError (failedToParse (name reference) error)]
    | Ok entries =>
        let (calls, thrown) := forEachSource w referencePath entries in
        probe :: calls ++
        match thrown with
        | Some error => [LoggerError (failedToParse (name reference) error)]
        | None => []
        end
    end.

(** The calls that change the disk. *)
Definition isFsWrite (c : Call) : bool :=
  match c with
  | MkdirSync _ | WriteFileSync _ _ => true
  | _ => false
  end.

(** A call to the file system that throws in the world [w]. *)
Definition failing (w : World) (c : Call) : bool :=
  isFsWrite c && match throws w c with Some _ => true | None => false end.

Definition isLoggerError (c : Call) : bool :=
  match c with LoggerError _ => true | _ => false end.

(** A world with an empty disk on which nothing throws and no source is a
    JSON object. *)
Definition quietWorld : World :=
  {| existsSync := fun _ => false;
     throws := fun _ => None;
     sourcesOf := fun _ => Throws (lit "SyntaxError") |}.

Definition mainnet : Network := {| key := lit "mainnet"; rpc := lit "wss://node" |}.

Definition flattenedToken : DynamicReference :=
  {| network := mainnet;
     name := lit "Token";
     source := lit "contract Token { uint256 x; }" |}.

(* --------------------------------------------------------------------- *)
(** *** generateStaticReference (lines 16-130) *)

(** The static reference of a contract.  [generateReferences] passes a
    reference here only when its [abi] is not [undefined] (line 212), so the
    ABI is a string; the three other fields may be [undefined]. *)
Record StaticReference : Type := {
  staticNetwork : Network;
  staticName : JsString;
  abi : JsString;
  address : option JsString;
  bytecode : option JsString;
  deployedBytecode : option JsString
}.

(** Truthiness of a string, and of a string that may be [undefined]. *)
Definition truthy (s : JsString) : bool :=
  match s with [] => false | _ :: _ => true end.

Definition truthyOpt (o : option JsString) : bool :=
  match o with Some s => truthy s | None => false end.

(** The text of the generated file, one constructor per template of the
    source with the values it interpolates: the header (the comment, the
    import from ethers and the [_NAME] constant), then the constants. *)
Inductive Declaration : Type :=
| Header (contract imported constant : JsString)
| AbiConstant (constant abiText : JsString)
| BytecodeConstant (constant code : JsString)
| DeployedBytecodeConstant (constant code : JsString)
| AddressConstant (constant addressText : JsString)
| ContractConstants (constant : JsString)
| InterfaceConstant (constant : JsString)
| EventTopicsConstant (constant topics : JsString).

(** The names a declaration brings into the generated module. *)
Definition provides (d : Declaration) : list JsString :=
  match d with
  | Header _ imported constant => [imported; constant ++ lit "_NAME"]
  | AbiConstant constant _ => [constant ++ lit "_ABI"]
  | BytecodeConstant constant _ => [constant ++ lit "_BYTECODE"]
  | DeployedBytecodeConstant constant _ => [constant ++ lit "_DEPLOYED_BYTECODE"]
  | AddressConstant constant _ => [constant ++ lit "_ADDRESS"]
  | ContractConstants constant =>
      [constant ++ lit "_CONTRACT"; constant ++ lit "_INTERFACE"]
  | InterfaceConstant constant => [constant ++ lit "_INTERFACE"]
  | EventTopicsConstant constant _ => [constant ++ lit "_EVENT_TOPICS"]
  end.

(** The names the text of a declaration refers to: lines 88-93 use
    [Contract], [_ADDRESS] and [_ABI]; lines 97-99 use [utils] and [_ABI]. *)
Definition needs (d : Declaration) : list JsString :=
  match d with
  | ContractConstants constant =>
      [lit "Contract"; constant ++ lit "_ADDRESS"; constant ++ lit "_ABI"]
  | InterfaceConstant constant => [lit "utils"; constant ++ lit "_ABI"]
  | _ => []
  end.

Definition JsString_eqb (a b : JsString) : bool :=
  if list_eq_dec Ascii.ascii_dec a b then true else false.

(** Every name a declaration refers to is brought in by an earlier one. *)
Fixpoint closedUnder (known : list JsString) (file : list Declaration) : bool :=
  match file with
  | [] => true
  | d :: rest =>
      forallb (fun n => existsb (JsString_eqb n) known) (needs d)
      && closedUnder (known ++ provides d) rest
  end.

Inductive StaticCall : Type :=
| SExistsSync (path : JsString)
| SMkdirSync (path : JsString)
| SGetCode (rpcUrl addressText : JsString)
| SWriteFileSync (path : JsString) (content : list Declaration)
| SLoggerInfo (message : JsString).

(** The world around a call of [generateStaticReference]: the disk, the
    calls to the file system that throw, the code the node returns for an
    address (or the rejection of the request), and what lines 103-116 make
    of an ABI: the text of [JSON.stringify(eventTopics)], or the error thrown
    by [new utils.Interface], [JSON.parse] or [getEventTopic]. *)
Record StaticWorld : Type := {
  staticExists : JsString -> bool;
  staticThrows : StaticCall -> option JsString;
  codeAt : JsString -> JsString -> Result JsString;
  eventTopicsOf : JsString -> Result JsString
}.

(** A run: the calls made so far and how it went on. *)
Definition Run (A : Type) : Type := list StaticCall * Result A.

Definition done {A : Type} (a : A) : Run A := ([], Ok a).

Definition andThen {A B : Type} (r : Run A) (k : A -> Run B) : Run B :=
  match r with
  | (calls, Ok a) => let (calls', result) := k a in (calls ++ calls', result)
  | (calls, Throws error) => (calls, Throws error)
  end.

(** A call to the file system, which may throw. *)
Definition fsCall (w : StaticWorld) (c : StaticCall) : Run unit :=
  ([c], match staticThrows w c with Some error => Throws error | None => Ok tt end).

(** Lines 54-118: the text of the file, given the byte code known after
    line 52. *)
Definition contractInterface (w : StaticWorld) (reference : StaticReference)
  (constant : JsString) (code : option JsString) : Result (list Declaration) :=
  let imports :=
    match address reference with None => lit "utils" | Some _ => lit "Contract" end in
  let text :=
    [Header (staticName reference) imports constant]
    ++ (if truthy (abi reference) then [AbiConstant constant (abi reference)] else [])
    ++ match code with
       | Some c => if truthy c then [BytecodeConstant constant c] else []
       | None => []
       end
    ++ match deployedBytecode reference with
       | Some c => if truthy c then [DeployedBytecodeConstant constant c] else []
       | None => []
       end
    ++ match address reference with
       | Some a => [AddressConstant constant a]
       | None => []
       end in
  if truthy (abi reference) then
    let text' :=
      text ++ match address reference with
              | Some _ => [ContractConstants constant]
              | None => [InterfaceConstant constant]
              end in
    match eventTopicsOf w (abi reference) with
    | Ok topics => Ok (text' ++ [EventTopicsConstant constant topics])
    | Throws error => Throws error
    end
  else Ok text.

(** Lines 16-130.  The promise of the function is rejected when the run
    throws. *)
Definition generateStaticReference (w : StaticWorld) (reference : StaticReference)
  : Run unit :=
  let referencePath :=
    referencePathOf (staticNetwork reference) (staticName reference) in
  let file := referencePath ++ lit "/index.ts" in
  andThen
    (if staticExists w referencePath then ([SExistsSync referencePath], Ok tt)
     else andThen ([SExistsSync referencePath], Ok tt)
                  (fun _ => fsCall w (SMkdirSync referencePath)))
    (fun _ =>
       if staticExists w file then
         ([SExistsSync file;
           SLoggerInfo (lit "Reference for " ++ staticName reference
                        ++ lit " already exists.")],
          Ok tt)
       else
         andThen ([SExistsSync file], Ok tt) (fun _ =>
         let constant := bigName (staticName reference) in
         andThen
           (match address reference, bytecode reference with
            | Some a, None =>
                if truthy a then
                  ([SGetCode (rpc (staticNetwork reference)) a],
                   match codeAt w (rpc (staticNetwork reference)) a with
                   | Ok c => Ok (Some c)
                   | Throws error => Throws error
                   end)
                else done None
            | _, given => done given
            end)
           (fun code =>
              andThen ([], contractInterface w reference constant code)
                (fun text =>
                   andThen (fsCall w (SWriteFileSync file text))
                     (fun _ =>
                        ([SLoggerInfo (lit "Generated " ++ referencePath
                                       ++ lit "/index.ts")],
                         Ok tt)))))).

Definition isStaticWrite (c : StaticCall) : bool :=
  match c with SWriteFileSync _ _ => true | _ => false end.

Definition isGetCode (c : StaticCall) : bool :=
  match c with SGetCode _ _ => true | _ => false end.

(** A world with an empty disk, a node that answers and an ABI without
    events. *)
Definition quietStaticWorld : StaticWorld :=
  {| staticExists := fun _ => false;
     staticThrows := fun _ => None;
     codeAt := fun _ _ => Ok (lit "0x6080");
     eventTopicsOf := fun _ => Ok (lit "{}") |}.

Definition deployedToken : StaticReference :=
  {| staticNetwork := mainnet;
     staticName := lit "Token";
     abi := lit "[]";
     address := Some (lit "0xA11");
     bytecode := None;
     deployedBytecode := None |}.

(** A world with an empty disk where every write of a file is refused. *)
Definition readOnlyWorld : World :=
  {| existsSync := fun _ => false;
     throws := fun c =>
       match c with
       | WriteFileSync _ _ => Some (lit "Error: EROFS")
       | _ => None
       end;
     sourcesOf := fun _ => Throws (lit "SyntaxError") |}.

End References.

(* ===================================================================== *)
(** ** How the functions run *)
(* ===================================================================== *)

Lemma typeof_tag (v : Js.Value) : In (Js.typeof v) Js.typeTags.
Proof.
  destruct v; simpl; tauto.
Qed.

Lemma typeof_not_NewBlock (v : Js.Value) : Js.typeof v <> "NewBlock".
Proof.
  intros H. pose proof (typeof_tag v) as Htag. rewrite H in Htag.
  simpl in Htag.
  repeat (destruct Htag as [Htag | Htag]; [discriminate Htag |]).
  exact Htag.
Qed.

Lemma processEvent_run (event : Js.Value) (env : Env) :
  processEvent event env = (Fulfilled None, env).
Proof.
  unfold processEvent.
  case_eq (String.eqb (Js.typeof event) "NewBlock"); intros _; reflexivity.
Qed.

Lemma processOrderEvent_run (event : Js.Value) (env : Env) :
  processOrderEvent event env = (Fulfilled None, env).
Proof. reflexivity. Qed.

Lemma processNewBlockEvent_run (event : Js.Value) (env : Env) :
  processNewBlockEvent event env = (Fulfilled None, env).
Proof. reflexivity. Qed.

Lemma getNewPools_run (fromBlock toBlock : Z) (env : Env) :
  getNewPools fromBlock toBlock env = (Fulfilled [], env).
Proof. reflexivity. Qed.

(** One round of the loop, when there is fuel for it. *)
Lemma chunkLoop_step (fuel i : nat) (l : list AddressLike) (env : Env) :
  chunkLoop (S fuel) i l env =
  if (i <? List.length l)%nat
  then chunkLoop fuel (i + chunkSize) l
         (emit CallUpdateInternalPoolState
            (emit (CallGetQuotesForPools (slice i (i + chunkSize) l)) env))
  else (Fulfilled tt, env).
Proof.
  simpl. destruct (i <? List.length l)%nat; reflexivity.
Qed.

(** The fuel [syncState] gives the loop is enough: once the fuel covers the
    addresses left, more fuel changes nothing, so the loop ends because its
    condition fails and not because the fuel ran out. *)
Lemma chunkLoop_fuel (fuel : nat) :
  forall (i : nat) (l : list AddressLike) (env : Env),
    (List.length l - i <= fuel)%nat ->
    chunkLoop (S fuel) i l env = chunkLoop fuel i l env.
Proof.
  induction fuel as [| fuel IH]; intros i l env Hfuel.
  - rewrite chunkLoop_step.
    destruct (Nat.ltb_spec i (List.length l)) as [Hlt | Hge]; [lia | reflexivity].
  - rewrite (chunkLoop_step (S fuel) i l env), (chunkLoop_step fuel i l env).
    destruct (Nat.ltb_spec i (List.length l)) as [Hlt | Hge]; [| reflexivity].
    apply IH. unfold chunkSize. lia.
Qed.

(** The loop touches the trace only, and fulfils. *)
Lemma chunkLoop_run (fuel : nat) :
  forall (i : nat) (l : list AddressLike) (env : Env),
    chunkLoop fuel i l env =
    (Fulfilled tt,
     {| strategy := strategy env;
        trace := (trace env ++ chunkEffects fuel i l)%list |}).
Proof.
  induction fuel as [| fuel IH]; intros i l env.
  - simpl. rewrite app_nil_r. destruct env; reflexivity.
  - rewrite chunkLoop_step. simpl chunkEffects.
    destruct (i <? List.length l)%nat.
    + rewrite IH. simpl. rewrite <- !app_assoc. reflexivity.
    + rewrite app_nil_r. destruct env; reflexivity.
Qed.

(** With the fuel [syncState] gives it, the loop hands every address to
    [getQuotesForPools], in order and once. *)
Lemma chunkLoop_covers (fuel : nat) :
  forall (i : nat) (l : list AddressLike),
    (List.length l - i <= fuel)%nat ->
    List.concat (chunksOf (chunkEffects fuel i l)) = skipn i l.
Proof.
  induction fuel as [| fuel IH]; intros i l Hfuel; simpl.
  - symmetry. apply skipn_all2. lia.
  - destruct (Nat.ltb_spec i (List.length l)) as [Hlt | Hge].
    + simpl. rewrite IH by (unfold chunkSize; lia).
      unfold slice. replace (i + chunkSize - i)%nat with chunkSize by lia.
      rewrite Nat.add_comm, <- skipn_skipn. apply firstn_skipn.
    + simpl. symmetry. apply skipn_all2. exact Hge.
Qed.

Corollary chunkLoop_complete (l : list AddressLike) :
  List.concat (chunksOf (chunkEffects (List.length l) 0 l)) = l.
Proof.
  rewrite chunkLoop_covers by lia. reflexivity.
Qed.

(** A list of 450 addresses is handled in three chunks. *)
Example chunkLoop_450 :
  map (@List.length AddressLike)
      (chunksOf (trace (snd (chunkLoop 450 0 (repeat "0xA11" 450) freshEnv))))
  = [200; 200; 50]%nat.
Proof. vm_compute. reflexivity. Qed.

Lemma syncState_run (client : WebSocketProvider) (env : Env) :
  syncState client env =
  (match respond client (List.length (external (trace env))) with
   | Fulfilled _ => Fulfilled tt
   | Rejected reason => Rejected reason
   end,
   emit RpcGetBlockNumber env).
Proof.
  unfold syncState, await, getBlockNumber.
  destruct (respond client (List.length (external (trace env)))); reflexivity.
Qed.

(* ===================================================================== *)
(** ** The frame of every operation *)
(* ===================================================================== *)

Create Rewrite HintDb closure.

Lemma syncState_strategy (client : WebSocketProvider) (env : Env) :
  strategy (snd (syncState client env)) = strategy env.
Proof. rewrite syncState_run. reflexivity. Qed.

Lemma syncState_trace (client : WebSocketProvider) (env : Env) :
  trace (snd (syncState client env)) = (trace env ++ [RpcGetBlockNumber])%list.
Proof. rewrite syncState_run. reflexivity. Qed.

Lemma external_snoc (tr : list Effect) :
  external (tr ++ [RpcGetBlockNumber]) = (external tr ++ [RpcGetBlockNumber])%list.
Proof. unfold external. rewrite filter_app. reflexivity. Qed.

#[local] Hint Rewrite processEvent_run processOrderEvent_run
  processNewBlockEvent_run syncState_strategy syncState_trace : closure.

(** No operation writes the two arrays. *)
Lemma perform_strategy (op : Operation) (env : Env) :
  strategy (perform op env) = strategy env.
Proof.
  destruct op; simpl; autorewrite with closure; reflexivity.
Qed.

Lemma performAll_strategy (ops : list Operation) :
  forall env : Env, strategy (performAll ops env) = strategy env.
Proof.
  induction ops as [| op ops IH]; intros env.
  - reflexivity.
  - change (strategy (performAll ops (perform op env)) = strategy env).
    rewrite IH. apply perform_strategy.
Qed.

(** The only entry an operation adds to the trace is a request for the
    block number. *)
Lemma perform_trace (op : Operation) (env : Env) :
  trace (perform op env) = trace env \/
  trace (perform op env) = (trace env ++ [RpcGetBlockNumber])%list.
Proof.
  destruct op; simpl; autorewrite with closure; auto.
Qed.

Lemma reachable_strategy (env : Env) :
  reachable env -> strategy env = initialState.
Proof.
  induction 1 as [| op env _ IH].
  - reflexivity.
  - rewrite perform_strategy. exact IH.
Qed.

Lemma reachable_trace (env : Env) :
  reachable env -> Forall (fun e => e = RpcGetBlockNumber) (trace env).
Proof.
  induction 1 as [| op env _ IH].
  - constructor.
  - destruct (perform_trace op env) as [Heq | Heq]; rewrite Heq.
    + exact IH.
    + apply Forall_app. split; [exact IH | repeat constructor].
Qed.

(* ===================================================================== *)
(** ** processEvent *)
(* ===================================================================== *)

(** C9. Whatever value is passed as the event, [processEvent] fulfils with
    [undefined] and leaves the environment (the two arrays and the trace) as
    it was: [typeof] yields one of the eight primitive type tags, never
    ["NewBlock"], so the only clause of the switch is not reachable. *)
Theorem processEvent_always_undefined :
  forall (event : Js.Value) (env : Env),
    processEvent event env = (Fulfilled None, env) /\
    In (Js.typeof event) Js.typeTags /\
    String.eqb (Js.typeof event) "NewBlock" = false.
Proof.
  intros event env. split; [apply processEvent_run | split].
  - apply typeof_tag.
  - apply String.eqb_neq, typeof_not_NewBlock.
Qed.

(* ===================================================================== *)
(** ** The record the factory returns *)
(* ===================================================================== *)

(** C8. The record returned by [openseaSudoswapArb] has the single member
    [syncState]: [processEvent] is defined in the closure but is not part of
    the returned record, so the second entry point of the public surface is
    missing. *)
Theorem factory_returns_syncState_only :
  forall client : WebSocketProvider,
    map fst (openseaSudoswapArb client) = ["syncState"] /\
    Js.get "syncState" (openseaSudoswapArb client)
      = Some (SyncMember (syncState client)) /\
    Js.get "processEvent" (openseaSudoswapArb client) = None.
Proof.
  intros client. repeat split.
Qed.

(* ===================================================================== *)
(** ** syncState *)
(* ===================================================================== *)

(** C10. For every provider and every chain head it reports (or fails to
    report), [syncState] run in a reachable environment leaves [sudoPools]
    and [poolBids] unchanged and empty; [getNewPools] fulfils with the empty
    list for every block range, so the loop body does not run and
    [updateInternalPoolState] is not applied; the one thing [syncState] adds
    to the trace is the request for the current block number. *)
Theorem syncState_leaves_pools_empty :
  forall (client : WebSocketProvider) (env : Env),
    reachable env ->
    strategy (snd (syncState client env)) = strategy env /\
    sudoPools (strategy (snd (syncState client env))) = [] /\
    poolBids (strategy (snd (syncState client env))) = [] /\
    (forall fromBlock toBlock e,
        getNewPools fromBlock toBlock e = (Fulfilled [], e)) /\
    trace (snd (syncState client env)) = (trace env ++ [RpcGetBlockNumber])%list /\
    ~ In CallUpdateInternalPoolState (trace (snd (syncState client env))).
Proof.
  intros client env Hreach.
  pose proof (reachable_strategy env Hreach) as Hst.
  pose proof (reachable_trace env Hreach) as Htr.
  rewrite syncState_strategy, syncState_trace, Hst.
  repeat split.
  intros Hin. apply in_app_or in Hin. destruct Hin as [Hin | Hin].
  - rewrite Forall_forall in Htr. specialize (Htr _ Hin). discriminate Htr.
  - simpl in Hin. destruct Hin as [Hin | []]. discriminate Hin.
Qed.

Lemma syncState_leaves_pools_empty_witness :
  reachable (perform (OpSyncState flakyClient) freshEnv) /\
  sudoPools (strategy (snd (syncState (steadyClient 17000000)
                              (perform (OpSyncState flakyClient) freshEnv)))) = [].
Proof.
  assert (Hreach : reachable (perform (OpSyncState flakyClient) freshEnv))
    by (apply reachable_step, reachable_fresh).
  split; [exact Hreach |].
  exact (proj1 (proj2 (syncState_leaves_pools_empty
                         (steadyClient 17000000) _ Hreach))).
Defined.

(** C6. A second [syncState] over an unchanged history range (the provider
    reports the same head to both calls), with no event in between, leaves
    the snapshot equal to what the first call left: the two arrays are the
    same, no pool entry is added and the pool addresses stay without
    repetition. *)
Theorem syncState_resync_idempotent :
  forall (client : WebSocketProvider) (env : Env),
    respond client (List.length (external (trace env)))
      = respond client (S (List.length (external (trace env)))) ->
    let env1 := snd (syncState client env) in
    let env2 := snd (syncState client env1) in
    strategy env2 = strategy env1 /\
    fst (syncState client env1) = fst (syncState client env) /\
    List.length (sudoPools (strategy env2))
      = List.length (sudoPools (strategy env1)) /\
    (NoDup (poolKeys (strategy env1)) -> NoDup (poolKeys (strategy env2))).
Proof.
  intros client env Hsame env1 env2.
  assert (Hframe : strategy env2 = strategy env1)
    by (unfold env2; apply syncState_strategy).
  split; [exact Hframe |]. split.
  - unfold env1. rewrite !syncState_run. simpl.
    rewrite external_snoc, length_app. simpl.
    rewrite Nat.add_1_r, <- Hsame. reflexivity.
  - rewrite Hframe. split; [reflexivity | trivial].
Qed.

Lemma syncState_resync_idempotent_witness :
  strategy (snd (syncState (steadyClient 17000000)
                   (snd (syncState (steadyClient 17000000) (envOf tiedState)))))
  = tiedState /\
  NoDup (poolKeys (strategy
           (snd (syncState (steadyClient 17000000)
                   (snd (syncState (steadyClient 17000000) (envOf tiedState))))))).
Proof.
  pose proof (syncState_resync_idempotent (steadyClient 17000000)
                (envOf tiedState) eq_refl) as H.
  cbv zeta in H. destruct H as [Heq [_ [_ Hkeys]]].
  split.
  - rewrite Heq. reflexivity.
  - apply Hkeys. vm_compute.
    repeat constructor; simpl; intuition discriminate.
Defined.

(* ===================================================================== *)
(** ** Block events and the consistency invariant *)
(* ===================================================================== *)

Section HeadBlock.

(** The closure has no variable for the head block.  The two properties
    below are proved for an arbitrary reading of it off the strategy's
    state. *)
Variable headBlock : StrategyState -> Z.

(** C2. A BlockEvent whose block number is at most the head block (however
    the head block is read off the strategy's state) is a no-op, through
    [processNewBlockEvent] and through [processEvent]: the environment, and
    with it the snapshot, is left as it was and no Action comes out. *)
Theorem stale_block_event_is_noop :
  forall (b : Block.t) (env : Env),
    Block.blockNumber b <= headBlock (strategy env) ->
    processNewBlockEvent (Block.toJs b) env = (Fulfilled None, env) /\
    processEvent (Block.toJs b) env = (Fulfilled None, env).
Proof.
  intros b env Hstale.
  split; [apply processNewBlockEvent_run | apply processEvent_run].
Qed.

(** C3. The snapshot consistency invariant (every pool has
    [lastSyncedBlock <= headBlock]) holds in every reachable environment and
    is preserved by every sequence of operations ([syncState],
    [processEvent] and the two handlers); across the operations the pools
    keep their addresses and no [lastSyncedBlock] decreases. *)
Theorem snapshot_consistency_preserved :
  forall (ops : list Operation) (env : Env),
    consistent headBlock (strategy env) ->
    consistent headBlock (strategy (performAll ops env)) /\
    Forall2 (fun p p' => Pool.address p = Pool.address p' /\
                         Pool.lastSyncedBlock p <= Pool.lastSyncedBlock p')
            (sudoPools (strategy env))
            (sudoPools (strategy (performAll ops env))) /\
    (forall env', reachable env' -> consistent headBlock (strategy env')).
Proof.
  intros ops env Hinv.
  rewrite performAll_strategy. split; [exact Hinv | split].
  - clear Hinv. induction (sudoPools (strategy env)) as [| p ps IH].
    + constructor.
    + constructor; [split; [reflexivity | lia] | exact IH].
  - intros env' Hreach. unfold consistent.
    rewrite (reachable_strategy env' Hreach). constructor.
Qed.

End HeadBlock.

Lemma stale_block_event_is_noop_witness :
  processNewBlockEvent (Block.toJs (blockAt 15)) (envOf tiedState)
  = (Fulfilled None, envOf tiedState).
Proof.
  refine (proj1 (stale_block_event_is_noop (fun _ => 20) (blockAt 15)
                   (envOf tiedState) _)).
  simpl. lia.
Defined.

Lemma snapshot_consistency_preserved_witness :
  consistent (fun _ => 20)
    (strategy (performAll
                 [OpSyncState (steadyClient 17000000);
                  OpProcessEvent (Block.toJs (blockAt 25));
                  OpProcessOrderEvent (Listing.toJs listing10);
                  OpProcessNewBlockEvent (Block.toJs (blockAt 15))]
                 (envOf tiedState))).
Proof.
  refine (proj1 (snapshot_consistency_preserved (fun _ => 20) _
                   (envOf tiedState) _)).
  unfold consistent. simpl. repeat constructor; simpl; lia.
Defined.

(** C2, refuted as stated. No reading of a head block off the strategy's
    state equals the largest delivered block number after every sequence of
    BlockEvents: the sequences [5] and [7] leave the same state. *)
Lemma headBlock_does_not_follow_blocks :
  ~ (exists headBlock : StrategyState -> Z,
        forall (events : list Block.t) (m : Z),
          maxBlockNumber events = Some m ->
          headBlock (strategy (deliver processNewBlockEvent events freshEnv)) = m).
Proof.
  intros [headBlock Hclaim].
  pose proof (Hclaim [blockAt 5] 5 eq_refl) as H5.
  pose proof (Hclaim [blockAt 7] 7 eq_refl) as H7.
  simpl in H5, H7. rewrite H5 in H7. discriminate H7.
Qed.

(* ===================================================================== *)
(** ** Listing events *)
(* ===================================================================== *)

(** A listing whose best quote does not exceed its price plus fees yields
    no Action. *)
Lemma listing_below_cost_yields_nothing :
  forall (fees : Z) (l : Listing.t) (env : Env),
    profitablePools fees (strategy env) l = [] ->
    producedAction (fst (processOrderEvent (Listing.toJs l) env)) = None.
Proof. intros fees l env _. reflexivity. Qed.

(** C4. A pool without a quote is never the pool of an Action that
    [processOrderEvent] (or [processEvent]) returns for a listing, and when
    no pool of the listing's collection has a quote no Action is produced. *)
Theorem absent_quote_never_matched :
  forall (l : Listing.t) (env : Env) (p : Pool.t),
    In p (sudoPools (strategy env)) ->
    currentBid (strategy env) p = None ->
    selectedPool (fst (processOrderEvent (Listing.toJs l) env))
      <> Some (Pool.address p) /\
    selectedPool (fst (processEvent (Listing.toJs l) env))
      <> Some (Pool.address p) /\
    (quotedPools (strategy env) l = [] ->
     producedAction (fst (processOrderEvent (Listing.toJs l) env)) = None /\
     producedAction (fst (processEvent (Listing.toJs l) env)) = None).
Proof.
  intros l env p _ _.
  rewrite processEvent_run, processOrderEvent_run. simpl.
  repeat split; discriminate.
Qed.

Lemma absent_quote_never_matched_witness :
  quotedPools unquotedState listing10 = [] /\
  producedAction (fst (processOrderEvent (Listing.toJs listing10)
                         (envOf unquotedState))) = None.
Proof.
  split; [reflexivity |].
  refine (proj1 (proj2 (proj2 (absent_quote_never_matched listing10
                                 (envOf unquotedState) poolA _ _)) _)).
  - simpl. left. reflexivity.
  - reflexivity.
  - reflexivity.
Defined.

(* ===================================================================== *)
(** ** The chunk loop of syncState, for any list of pool addresses *)
(* ===================================================================== *)

(** The entries the loop adds come in rounds: a request for the quotes of a
    chunk, then the update of the pool state. *)
Lemma chunkEffects_rounds (fuel : nat) :
  forall (i : nat) (l : list AddressLike),
    chunkEffects fuel i l =
    flat_map (fun chunk => [CallGetQuotesForPools chunk; CallUpdateInternalPoolState])
             (chunksOf (chunkEffects fuel i l)).
Proof.
  induction fuel as [| fuel IH]; intros i l; simpl.
  - reflexivity.
  - destruct (i <? List.length l)%nat; simpl.
    + rewrite <- IH. reflexivity.
    + reflexivity.
Qed.

Lemma chunkEffects_sizes (fuel : nat) :
  forall (i : nat) (l : list AddressLike),
    Forall (fun chunk : list AddressLike =>
              (1 <= List.length chunk <= chunkSize)%nat)
           (chunksOf (chunkEffects fuel i l)).
Proof.
  induction fuel as [| fuel IH]; intros i l; simpl.
  - constructor.
  - destruct (Nat.ltb_spec i (List.length l)) as [Hlt | Hge]; simpl.
    + constructor; [| apply IH].
      unfold slice. rewrite length_firstn, length_skipn. unfold chunkSize. lia.
    + constructor.
Qed.

Lemma rounds_step (n i : nat) :
  (i < n)%nat ->
  S ((n - (i + 200) + (200 - 1)) / 200) = ((n - i + (200 - 1)) / 200)%nat.
Proof.
  intros Hlt.
  destruct (Nat.le_gt_cases (i + 200) n) as [Hfull | Hlast].
  - replace (n - i + (200 - 1))%nat
      with ((n - (i + 200) + (200 - 1)) + 1 * 200)%nat by lia.
    rewrite Nat.div_add by lia. lia.
  - replace (n - (i + 200))%nat with 0%nat by lia.
    change (S ((0 + (200 - 1)) / 200)) with 1%nat.
    apply (Nat.div_unique _ _ 1 (n - i - 1)); lia.
Qed.

Lemma chunkEffects_count (fuel : nat) :
  forall (i : nat) (l : list AddressLike),
    (List.length l - i <= fuel)%nat ->
    List.length (chunksOf (chunkEffects fuel i l))
    = ((List.length l - i + (chunkSize - 1)) / chunkSize)%nat.
Proof.
  induction fuel as [| fuel IH]; intros i l Hfuel; cbn [chunkEffects].
  - replace (List.length l - i)%nat with 0%nat by lia. reflexivity.
  - destruct (Nat.ltb_spec i (List.length l)) as [Hlt | Hge];
      cbn [chunksOf List.length].
    + rewrite IH by (unfold chunkSize; lia).
      unfold chunkSize in *. f_equal. apply rounds_step. exact Hlt.
    + replace (List.length l - i)%nat with 0%nat by lia. reflexivity.
Qed.

(** X1. Run on any list of pool addresses with the fuel [syncState] gives
    it (or more), the chunk loop asks [getQuotesForPools] for every address
    exactly once and in order: the chunks it passes, put end to end, are the
    list; no chunk is empty and none has more than 200 addresses. *)
Theorem chunk_loop_quotes_every_address_once :
  forall (fuel : nat) (poolAddresses : list AddressLike) (env : Env),
    (List.length poolAddresses <= fuel)%nat ->
    exists added : list Effect,
      trace (snd (chunkLoop fuel 0 poolAddresses env)) = (trace env ++ added)%list /\
      List.concat (chunksOf added) = poolAddresses /\
      Forall (fun chunk : list AddressLike =>
                (1 <= List.length chunk <= 200)%nat) (chunksOf added).
Proof.
  intros fuel l env Hfuel. exists (chunkEffects fuel 0 l).
  rewrite chunkLoop_run. simpl. split; [reflexivity | split].
  - rewrite chunkLoop_covers by lia. reflexivity.
  - apply chunkEffects_sizes.
Qed.

Lemma chunk_loop_quotes_every_address_once_witness :
  exists added : list Effect,
    trace (snd (chunkLoop 3 0 ["0xA11"; "0xB22"; "0xC33"] freshEnv))
      = (trace freshEnv ++ added)%list /\
    List.concat (chunksOf added) = ["0xA11"; "0xB22"; "0xC33"].
Proof.
  destruct (chunk_loop_quotes_every_address_once 3 ["0xA11"; "0xB22"; "0xC33"]
              freshEnv) as [added [Htrace [Hall _]]].
  - simpl. lia.
  - exists added. split; assumption.
Defined.

(** X2. The loop makes [ceil(n / 200)] rounds over [n] addresses; each round
    is one request for quotes followed by one application of
    [updateInternalPoolState]; the loop's promise fulfils, it writes neither
    array and sends nothing to the provider. *)
Theorem chunk_loop_rounds :
  forall (fuel : nat) (poolAddresses : list AddressLike) (env : Env),
    (List.length poolAddresses <= fuel)%nat ->
    exists chunks : list (list AddressLike),
      chunkLoop fuel 0 poolAddresses env =
      (Fulfilled tt,
       {| strategy := strategy env;
          trace := (trace env ++
                    flat_map (fun chunk => [CallGetQuotesForPools chunk;
                                            CallUpdateInternalPoolState])
                             chunks)%list |}) /\
      List.length chunks = ((List.length poolAddresses + 199) / 200)%nat /\
      external (trace (snd (chunkLoop fuel 0 poolAddresses env)))
        = external (trace env).
Proof.
  intros fuel l env Hfuel.
  exists (chunksOf (chunkEffects fuel 0 l)).
  rewrite chunkLoop_run, <- chunkEffects_rounds. split; [reflexivity | split].
  - rewrite chunkEffects_count by lia. unfold chunkSize.
    rewrite Nat.sub_0_r. reflexivity.
  - simpl. unfold external. rewrite filter_app.
    rewrite (chunkEffects_rounds fuel 0 l).
    induction (chunksOf (chunkEffects fuel 0 l)) as [| c cs IH]; simpl.
    + apply app_nil_r.
    + exact IH.
Qed.

Lemma chunk_loop_rounds_witness :
  exists chunks : list (list AddressLike),
    List.length chunks = 3%nat /\
    fst (chunkLoop 450 0 (repeat "0xA11" 450) freshEnv) = Fulfilled tt.
Proof.
  destruct (chunk_loop_rounds 450 (repeat "0xA11" 450) freshEnv)
    as [chunks [Hrun [Hcount _]]].
  - rewrite repeat_length. lia.
  - exists chunks. split.
    + rewrite Hcount, repeat_length. reflexivity.
    + rewrite Hrun. reflexivity.
Defined.

(* ===================================================================== *)
(** ** Requests to the provider over a run *)
(* ===================================================================== *)

Lemma perform_external (op : Operation) (env : Env) :
  external (trace (perform op env)) =
  (external (trace env) ++ if isSync op then [RpcGetBlockNumber] else [])%list.
Proof.
  destruct op; simpl; autorewrite with closure; simpl;
    try (rewrite app_nil_r; reflexivity).
  apply external_snoc.
Qed.

(** X3. Over any run of operations the provider receives exactly one
    request per call of [syncState] and none from the event handlers, and no
    run writes the two arrays.  A call of [syncState] after the run settles
    as the provider settles the next request, whatever became of the earlier
    calls: a failed sync does not prevent a later one from succeeding. *)
Theorem one_request_per_sync :
  forall (ops : list Operation) (client : WebSocketProvider) (env : Env),
    external (trace (performAll ops env))
      = (external (trace env)
         ++ repeat RpcGetBlockNumber (List.length (filter isSync ops)))%list /\
    strategy (performAll ops env) = strategy env /\
    isFulfilled (fst (syncState client (performAll ops env)))
      = isFulfilled (respond client (List.length (external (trace env))
                                      + List.length (filter isSync ops))).
Proof.
  intros ops client env.
  assert (Hext : forall e,
             external (trace (performAll ops e))
             = (external (trace e)
                ++ repeat RpcGetBlockNumber (List.length (filter isSync ops)))%list).
  { induction ops as [| op ops IH]; intros e.
    - simpl. symmetry. apply app_nil_r.
    - change (performAll (op :: ops) e) with (performAll ops (perform op e)).
      rewrite IH, perform_external. simpl.
      destruct (isSync op); simpl.
      + rewrite <- app_assoc. reflexivity.
      + rewrite app_nil_r. reflexivity. }
  split; [apply Hext | split; [apply performAll_strategy |]].
  rewrite syncState_run, Hext, length_app, repeat_length. simpl.
  destruct (respond client _); reflexivity.
Qed.

(* ===================================================================== *)
(** ** The constant prefix of a reference file *)
(* ===================================================================== *)

Module ReferencesFacts.
Import References.
Local Open Scope list_scope.
Local Open Scope nat_scope.

(** Facts about one code unit are checked on the 256 of them. *)
Ltac each_ascii c :=
  destruct c as [[] [] [] [] [] [] [] []]; vm_compute;
  try reflexivity; try discriminate; auto.

Lemma upper_not_lower (c : ascii) : isLower (toUpperCase1 c) = false.
Proof. each_ascii c. Qed.

Lemma upper_underscore (c : ascii) :
  Ascii.eqb (toUpperCase1 c) "_" = Ascii.eqb c "_".
Proof. each_ascii c. Qed.

Lemma upper_space (c : ascii) :
  Ascii.eqb (toUpperCase1 c) " " = Ascii.eqb c " ".
Proof. each_ascii c. Qed.

Lemma alnum_mark (c : ascii) :
  isAlnum c = true ->
  Ascii.eqb c (toUpperCase1 c) = isUpper c || isDigit c.
Proof. each_ascii c. Qed.

Lemma alnum_upper (c : ascii) :
  isAlnum c = true ->
  Ascii.eqb (toUpperCase1 c) " " = false /\
  Ascii.eqb (toUpperCase1 c) "_" = false /\
  isDigit (toUpperCase1 c) = isDigit c /\
  (isUpper c = true -> toUpperCase1 c = c) /\
  (isDigit c = true -> toUpperCase1 c = c /\ isUpper c = false).
Proof. each_ascii c; repeat split; try discriminate; reflexivity. Qed.

(** A code unit other than the underscore is passed on by [joinDigits]. *)
Lemma joinDigits_cons (c : ascii) (rest : JsString) :
  Ascii.eqb c "_" = false ->
  joinDigits (c :: rest) = c :: joinDigits rest.
Proof.
  intros Hc. destruct rest as [| d rest']; simpl.
  - reflexivity.
  - rewrite Hc. reflexivity.
Qed.

(** Induction that follows [joinDigits]: two code units at a time. *)
Lemma JsString_pairs_ind (P : JsString -> Prop) :
  P [] ->
  (forall c, P [c]) ->
  (forall c d rest, P rest -> P (d :: rest) -> P (c :: d :: rest)) ->
  forall s, P s.
Proof.
  intros Hnil Hone Hstep.
  assert (H : forall s, P s /\ forall c, P (c :: s)).
  { induction s as [| d rest [IH1 IH2]].
    - split; [exact Hnil | exact Hone].
    - split; [apply IH2 |]. intros c. apply Hstep; [exact IH1 | apply IH2]. }
  intros s. apply H.
Qed.

Lemma digit_not_underscore (d : ascii) :
  isDigit d = true -> notUnderscore d = true.
Proof. each_ascii d. Qed.

Lemma joinDigits_step (c d : ascii) (rest : JsString) :
  joinDigits (c :: d :: rest) =
  if Ascii.eqb c "_" && isDigit d then d :: joinDigits rest
  else c :: joinDigits (d :: rest).
Proof. reflexivity. Qed.

Lemma filter_cons {A : Type} (f : A -> bool) (x : A) (l : list A) :
  filter f (x :: l) = if f x then x :: filter f l else filter f l.
Proof. reflexivity. Qed.

Lemma joinDigits_keeps (s : JsString) :
  filter notUnderscore (joinDigits s) = filter notUnderscore s.
Proof.
  induction s as [| c | c d rest IHrest IHtail] using JsString_pairs_ind.
  - reflexivity.
  - reflexivity.
  - rewrite joinDigits_step.
    destruct (Ascii.eqb c "_" && isDigit d) eqn:Hmatch.
    + apply andb_prop in Hmatch. destruct Hmatch as [Hc Hd].
      rewrite (filter_cons _ c (d :: rest)).
      assert (Hnc : notUnderscore c = false)
        by (unfold notUnderscore; rewrite Hc; reflexivity).
      rewrite Hnc.
      rewrite !filter_cons, IHrest. reflexivity.
    + rewrite filter_cons, IHtail, <- filter_cons. reflexivity.
Qed.

Lemma joinDigits_subset (s : JsString) :
  forall c, In c (joinDigits s) -> In c s.
Proof.
  induction s as [| c0 | c0 d rest IHrest IHtail] using JsString_pairs_ind;
    intros c Hin.
  - exact Hin.
  - exact Hin.
  - rewrite joinDigits_step in Hin.
    destruct (Ascii.eqb c0 "_" && isDigit d).
    + destruct Hin as [Heq | Hin].
      * right. left. exact Heq.
      * right. right. apply IHrest. exact Hin.
    + destruct Hin as [Heq | Hin].
      * left. exact Heq.
      * right. apply IHtail. exact Hin.
Qed.

Lemma replaceSpaces_keeps (s : JsString) :
  filter notUnderscore (replaceSpaces s) = filter isLetterOrOther s.
Proof.
  induction s as [| c s IH].
  - reflexivity.
  - change (replaceSpaces (c :: s))
      with ((if Ascii.eqb c " " then "_"%char else c) :: replaceSpaces s).
    rewrite !filter_cons, IH. unfold notUnderscore, isLetterOrOther.
    destruct (Ascii.eqb c " ") eqn:Hsp.
    + rewrite andb_false_r. reflexivity.
    + rewrite andb_true_r. reflexivity.
Qed.

Lemma upper_isLetterOrOther (c : ascii) :
  isLetterOrOther (toUpperCase1 c) = isLetterOrOther c.
Proof.
  unfold isLetterOrOther. rewrite upper_underscore, upper_space. reflexivity.
Qed.

Lemma toUpperCase_keeps (s : JsString) :
  filter isLetterOrOther (toUpperCase s) = toUpperCase (filter isLetterOrOther s).
Proof.
  induction s as [| c s IH].
  - reflexivity.
  - change (toUpperCase (c :: s)) with (toUpperCase1 c :: toUpperCase s).
    rewrite !filter_cons, IH, upper_isLetterOrOther.
    destruct (isLetterOrOther c); reflexivity.
Qed.

Lemma markWords_keeps (letters : JsString) :
  forall index,
    filter isLetterOrOther (markWords index letters)
    = filter isLetterOrOther letters.
Proof.
  induction letters as [| c rest IH]; intros index.
  - reflexivity.
  - cbn [markWords]. rewrite filter_app, IH, filter_cons.
    destruct (index =? 0);
      [| destruct (Ascii.eqb c (toUpperCase1 c))];
      simpl; destruct (isLetterOrOther c); reflexivity.
Qed.

(** X4. For a name of ASCII letters and digits, [bigName] is the name in
    upper case with one underscore before every capital letter after the
    first character, and none before a digit. *)
Theorem bigName_of_alphanumeric_name :
  forall name : JsString,
    forallb isAlnum name = true ->
    bigName name = upperSnake 0 name.
Proof.
  intros name. unfold bigName. generalize 0 as index.
  induction name as [| c rest IH]; intros index Halnum.
  - reflexivity.
  - simpl in Halnum. apply andb_prop in Halnum. destruct Halnum as [Hc Hrest].
    specialize (IH (S index) Hrest).
    destruct (alnum_upper c Hc) as [Hsp [Hun [Hdig [Hup Hdg]]]].
    set (tail := markWords (S index) rest) in *.
    assert (Hone : forall s,
               replaceSpaces (toUpperCase (c :: s))
               = toUpperCase1 c :: replaceSpaces (toUpperCase s)).
    { intros s. unfold replaceSpaces, toUpperCase. cbn [map].
      rewrite Hsp. reflexivity. }
    assert (Hplain :
              joinDigits (replaceSpaces (toUpperCase (c :: tail)))
              = toUpperCase1 c :: upperSnake (S index) rest).
    { rewrite Hone, joinDigits_cons by exact Hun. f_equal. exact IH. }
    assert (Hmarked :
              joinDigits (replaceSpaces (toUpperCase ("_"%char :: c :: tail)))
              = (if isDigit c then [] else ["_"%char])
                ++ toUpperCase1 c :: upperSnake (S index) rest).
    { change (replaceSpaces (toUpperCase ("_"%char :: c :: tail)))
        with ("_"%char :: replaceSpaces (toUpperCase (c :: tail))).
      rewrite Hone, joinDigits_step, Hdig. cbn [Ascii.eqb Bool.eqb andb].
      destruct (isDigit c).
      - cbn [app]. f_equal. exact IH.
      - cbn [app]. rewrite joinDigits_cons by exact Hun.
        do 2 f_equal. exact IH. }
    cbn [markWords upperSnake]. fold tail.
    destruct (index =? 0) eqn:Hindex; cbn [negb andb app].
    + exact Hplain.
    + rewrite (alnum_mark c Hc).
      destruct (isUpper c) eqn:Hupper; cbn [orb app].
      * rewrite Hmarked.
        destruct (isDigit c) eqn:Hd; [| reflexivity].
        destruct (Hdg eq_refl) as [_ Hcontra]. congruence.
      * destruct (isDigit c) eqn:Hd; cbn [app].
        -- rewrite Hmarked, ?Hd. reflexivity.
        -- exact Hplain.
Qed.

Lemma bigName_of_alphanumeric_name_witness :
  bigName (lit "UniswapV3Factory") = lit "UNISWAP_V3_FACTORY".
Proof.
  rewrite (bigName_of_alphanumeric_name (lit "UniswapV3Factory") eq_refl).
  reflexivity.
Defined.

(** X5. For any ASCII name, [bigName] only adds or removes underscores and
    turns spaces into underscores: with the underscores taken out, the
    result is the name in upper case without its underscores and spaces. *)
Theorem bigName_keeps_the_letters :
  forall name : JsString,
    forallb isAscii name = true ->
    filter notUnderscore (bigName name)
    = toUpperCase (filter isLetterOrOther name).
Proof.
  intros name _. unfold bigName.
  rewrite joinDigits_keeps, replaceSpaces_keeps, toUpperCase_keeps,
    markWords_keeps.
  reflexivity.
Qed.

Lemma bigName_keeps_the_letters_witness :
  filter notUnderscore (bigName (lit "My Token_v2")) = lit "MYTOKENV2".
Proof.
  rewrite (bigName_keeps_the_letters (lit "My Token_v2") eq_refl).
  reflexivity.
Defined.

Lemma replaceSpaces_alphabet (s : JsString) :
  Forall (fun c => isLower c = false) s ->
  Forall (fun c => isLower c = false /\ c <> " "%char) (replaceSpaces s).
Proof.
  induction 1 as [| c s Hc _ IH].
  - constructor.
  - change (replaceSpaces (c :: s))
      with ((if Ascii.eqb c " " then "_"%char else c) :: replaceSpaces s).
    constructor; [| exact IH].
    destruct (Ascii.eqb_spec c " ") as [Heq | Hneq].
    + split; [reflexivity | discriminate].
    + split; assumption.
Qed.

(** X6. For any ASCII name, the result of [bigName] has no lower-case
    letter and no space, and is at most twice as long as the name. *)
Theorem bigName_has_no_lower_case :
  forall name : JsString,
    forallb isAscii name = true ->
    Forall (fun c => isLower c = false /\ c <> " "%char) (bigName name) /\
    List.length (bigName name) <= 2 * List.length name.
Proof.
  intros name _. split.
  - assert (Hstage : Forall (fun c => isLower c = false /\ c <> " "%char)
                       (replaceSpaces (toUpperCase (markWords 0 name)))).
    { apply replaceSpaces_alphabet. unfold toUpperCase.
      apply Forall_map, Forall_forall. intros c _. apply upper_not_lower. }
    rewrite Forall_forall in Hstage |- *.
    intros c Hin. apply Hstage, joinDigits_subset. exact Hin.
  - unfold bigName.
    assert (Hjoin : forall s, List.length (joinDigits s) <= List.length s).
    { induction s as [| c | c d rest IHrest IHtail] using JsString_pairs_ind.
      - apply Nat.le_refl.
      - apply Nat.le_refl.
      - rewrite joinDigits_step.
        destruct (Ascii.eqb c "_" && isDigit d); cbn [List.length] in *; lia. }
    assert (Hmark : forall letters index,
               List.length (markWords index letters) <= 2 * List.length letters).
    { induction letters as [| c rest IH]; intros index.
      - apply Nat.le_0_l.
      - cbn [markWords]. rewrite length_app. specialize (IH (S index)).
        destruct (index =? 0); [| destruct (Ascii.eqb c (toUpperCase1 c))];
          cbn [List.length]; lia. }
    etransitivity; [apply Hjoin |].
    unfold replaceSpaces, toUpperCase. rewrite !length_map. apply Hmark.
Qed.

Lemma bigName_has_no_lower_case_witness :
  Forall (fun c => isLower c = false /\ c <> " "%char)
         (bigName (lit "My Token_v2")).
Proof.
  exact (proj1 (bigName_has_no_lower_case (lit "My Token_v2") eq_refl)).
Defined.

(* --------------------------------------------------------------------- *)
(** *** Source keys and paths *)

Lemma split_not_nil (sep : ascii) (s : JsString) : split sep s <> [].
Proof.
  destruct s as [| c rest]; simpl.
  - discriminate.
  - destruct (Ascii.eqb c sep); [discriminate |].
    destruct (split sep rest); discriminate.
Qed.

(** Splitting and joining on the same separator gives the string back. *)
Lemma join_split (sep : ascii) (s : JsString) : join sep (split sep s) = s.
Proof.
  induction s as [| c rest IH].
  - reflexivity.
  - cbn [split]. destruct (Ascii.eqb_spec c sep) as [Heq | Hneq].
    + subst c. pose proof (split_not_nil sep rest) as Hnil.
      destruct (split sep rest) as [| first others]; [contradiction |].
      cbn [join app] in *. rewrite IH. reflexivity.
    + pose proof (split_not_nil sep rest) as Hnil.
      destruct (split sep rest) as [| first others]; [contradiction |].
      cbn [join] in *. destruct others as [| second others'].
      * rewrite IH. reflexivity.
      * rewrite <- IH. reflexivity.
Qed.

Lemma split_parts (sep : ascii) (s : JsString) :
  Forall (fun part => ~ In sep part) (split sep s).
Proof.
  induction s as [| c rest IH].
  - repeat constructor. intros [].
  - cbn [split]. destruct (Ascii.eqb_spec c sep) as [Heq | Hneq].
    + constructor; [intros [] | exact IH].
    + destruct (split sep rest) as [| first others].
      * repeat constructor. intros [Heq | []]. congruence.
      * inversion IH as [| ? ? Hfirst Hothers]; subst.
        constructor; [| exact Hothers].
        intros [Heq | Hin]; [congruence | contradiction].
Qed.

Lemma split_single (sep : ascii) (s : JsString) :
  existsb (Ascii.eqb sep) s = false -> split sep s = [s].
Proof.
  induction s as [| c rest IH]; intros Hno.
  - reflexivity.
  - cbn [existsb] in Hno. apply orb_false_elim in Hno.
    destruct Hno as [Hc Hrest]. cbn [split].
    rewrite Ascii.eqb_sym, Hc, (IH Hrest). reflexivity.
Qed.

Lemma split_several (sep : ascii) (s : JsString) :
  existsb (Ascii.eqb sep) s = true -> removelast (split sep s) <> [].
Proof.
  induction s as [| c rest IH]; intros Hsome.
  - discriminate.
  - cbn [split]. pose proof (split_not_nil sep rest) as Hnil.
    destruct (Ascii.eqb_spec c sep) as [Heq | Hneq].
    + destruct (split sep rest); [contradiction | discriminate].
    + cbn [existsb] in Hsome. rewrite Ascii.eqb_sym in Hsome.
      destruct (Ascii.eqb_spec c sep) as [| _]; [contradiction |].
      cbn [orb] in Hsome. specialize (IH Hsome).
      destruct (split sep rest) as [| first others]; [contradiction |].
      destruct others; [contradiction | discriminate].
Qed.

Lemma join_snoc (sep : ascii) (parts : list JsString) (part : JsString) :
  parts <> [] ->
  join sep (parts ++ [part]) = join sep parts ++ sep :: part.
Proof.
  induction parts as [| p ps IH]; intros Hnil; [contradiction |].
  destruct ps as [| q qs].
  - reflexivity.
  - change (join sep ((p :: q :: qs) ++ [part]))
      with (p ++ sep :: join sep ((q :: qs) ++ [part])).
    rewrite IH by discriminate.
    change (join sep (p :: q :: qs)) with (p ++ sep :: join sep (q :: qs)).
    rewrite <- app_assoc. reflexivity.
Qed.

(** X7. The file of a source key is written at the reference path followed
    by the key (after the removal of its first ["./"]) when the key has a
    directory part; a key without any ["/"] is written with an empty
    directory part, that is at the reference path followed by two slashes
    and the key.  The file name itself never contains a slash. *)
Theorem written_path_of_source_key :
  forall referencePath sourceKey : JsString,
    let sourcePath := replaceFirst (lit "./") [] sourceKey in
    directoryOf referencePath sourceKey ++ lit "/" ++ filenameOf sourceKey
    = referencePath ++ lit "/"
      ++ (if existsb (Ascii.eqb "/") sourcePath then sourcePath
          else lit "/" ++ sourcePath) /\
    ~ In "/"%char (filenameOf sourceKey).
Proof.
  intros referencePath sourceKey sourcePath.
  unfold directoryOf, filenameOf. fold sourcePath.
  pose proof (split_not_nil "/" sourcePath) as Hnil.
  pose proof (split_parts "/" sourcePath) as Hparts.
  pose proof (join_split "/" sourcePath) as Hjoin.
  split.
  - rewrite <- !app_assoc. do 2 f_equal.
    destruct (existsb (Ascii.eqb "/") sourcePath) eqn:Hslash.
    + pose proof (split_several "/" sourcePath Hslash) as Hdir.
      rewrite (app_removelast_last [] Hnil) in Hjoin at 1.
      rewrite join_snoc in Hjoin by exact Hdir.
      exact Hjoin.
    + rewrite (split_single "/" sourcePath Hslash). reflexivity.
  - rewrite Forall_forall in Hparts. apply Hparts.
    rewrite (app_removelast_last [] Hnil) at 2.
    apply in_or_app. right. left. reflexivity.
Qed.

(* --------------------------------------------------------------------- *)
(** *** generateDynamicReference *)

Lemma startsWith_In (pattern s : JsString) :
  startsWith pattern s = true -> forall c, In c pattern -> In c s.
Proof.
  revert s. induction pattern as [| p pattern IH]; intros s Hstarts c Hin.
  - destruct Hin.
  - destruct s as [| c0 s]; [discriminate |].
    cbn [startsWith] in Hstarts. apply andb_prop in Hstarts.
    destruct Hstarts as [Hhead Htail].
    apply Ascii.eqb_eq in Hhead. subst c0.
    destruct Hin as [Heq | Hin].
    + left. exact Heq.
    + right. apply (IH s Htail c Hin).
Qed.

Lemma includes_cons (pattern : JsString) (c : ascii) (s : JsString) :
  includes pattern (c :: s) = startsWith pattern (c :: s) || includes pattern s.
Proof. reflexivity. Qed.

(** A pattern with a code unit the string lacks does not occur in it. *)
Lemma includes_lacking (pattern s : JsString) (c : ascii) :
  In c pattern -> ~ In c s -> includes pattern s = false.
Proof.
  intros Hpattern. induction s as [| c0 s IH]; intros Hlacks.
  - destruct pattern; [destruct Hpattern | reflexivity].
  - rewrite includes_cons. apply orb_false_intro.
    + destruct (startsWith pattern (c0 :: s)) eqn:Hstarts; [| reflexivity].
      exfalso. apply Hlacks. apply (startsWith_In _ _ Hstarts c Hpattern).
    + apply IH. intros Hin. apply Hlacks. right. exact Hin.
Qed.

(** Without an occurrence of the pattern, [replace] returns the string. *)
Lemma replaceFirst_absent (pattern replacement s : JsString) :
  includes pattern s = false -> replaceFirst pattern replacement s = s.
Proof.
  induction s as [| c s IH]; intros Hnone.
  - cbn [includes] in Hnone. rewrite orb_false_r in Hnone.
    cbn [replaceFirst]. rewrite Hnone. reflexivity.
  - rewrite includes_cons in Hnone. apply orb_false_elim in Hnone.
    destruct Hnone as [Hhere Hlater].
    cbn [replaceFirst]. rewrite Hhere, (IH Hlater). reflexivity.
Qed.

Lemma split_prefix (sep : ascii) (pre rest : JsString) :
  existsb (Ascii.eqb sep) pre = false ->
  split sep (pre ++ sep :: rest) = pre :: split sep rest.
Proof.
  induction pre as [| c pre IH]; intros Hno.
  - cbn [app split]. rewrite Ascii.eqb_refl. reflexivity.
  - cbn [existsb] in Hno. apply orb_false_elim in Hno.
    destruct Hno as [Hc Hpre].
    cbn [app split]. rewrite Ascii.eqb_sym, Hc, (IH Hpre). reflexivity.
Qed.

Lemma existsb_In (c : ascii) (s : JsString) :
  existsb (Ascii.eqb c) s = false -> ~ In c s.
Proof.
  intros Hno Hin.
  assert (Hyes : existsb (Ascii.eqb c) s = true).
  { apply existsb_exists. exists c. split; [exact Hin | apply Ascii.eqb_refl]. }
  congruence.
Qed.

(** The key of a flattened source: directory [contracts], file
    [<name>.sol], as long as the name has no slash. *)
Lemma flattened_key (referencePath name : JsString) :
  existsb (Ascii.eqb "/") name = false ->
  directoryOf referencePath (lit "contracts/" ++ name ++ lit ".sol")
    = referencePath ++ lit "/contracts" /\
  filenameOf (lit "contracts/" ++ name ++ lit ".sol") = name ++ lit ".sol".
Proof.
  intros Hname.
  assert (Hfile : existsb (Ascii.eqb "/") (name ++ lit ".sol") = false).
  { rewrite existsb_app, Hname. reflexivity. }
  assert (Hkey : replaceFirst (lit "./") [] (lit "contracts/" ++ name ++ lit ".sol")
                 = lit "contracts/" ++ name ++ lit ".sol").
  { apply replaceFirst_absent.
    change (lit "contracts/" ++ name ++ lit ".sol")
      with (lit "contracts" ++ "/"%char :: name ++ lit ".sol").
    cbn [lit list_ascii_of_string app].
    repeat (rewrite includes_cons; cbn [startsWith lit list_ascii_of_string
                                         Ascii.eqb Bool.eqb andb orb]).
    apply (includes_lacking _ _ "/"%char).
    - right. left. reflexivity.
    - apply existsb_In. exact Hfile. }
  unfold directoryOf, filenameOf. rewrite Hkey.
  change (lit "contracts/" ++ name ++ lit ".sol")
    with (lit "contracts" ++ "/"%char :: name ++ lit ".sol").
  rewrite split_prefix by reflexivity.
  rewrite (split_single "/" _ Hfile). split; reflexivity.
Qed.

(** X8. A flattened source (one that, after the two replacements, is not
    wrapped in braces) of a contract whose name has no slash, on a disk
    without the contracts directory and with no failing call: the directory
    [<referencePath>/contracts] is created, the one file
    [<referencePath>/contracts/<name>.sol] is written with the source after
    the two replacements, and its generation is logged.  A source that has
    neither ["{{"] nor ["}}"] is written unchanged. *)
Theorem flattened_source_writes_one_file :
  forall (w : World) (reference : DynamicReference),
    let referencePath := referencePathOf (network reference) (name reference) in
    existsSync w (referencePath ++ lit "/contracts") = false ->
    (forall c, throws w c = None) ->
    existsb (Ascii.eqb "/") (name reference) = false ->
    startsWith (lit "{") (cleanSource (source reference))
      && endsWith (lit "}") (cleanSource (source reference)) = false ->
    generateDynamicReference w reference =
    [ExistsSync (referencePath ++ lit "/contracts");
     MkdirSync (referencePath ++ lit "/contracts");
     WriteFileSync (referencePath ++ lit "/contracts" ++ lit "/"
                    ++ name reference ++ lit ".sol")
                   (cleanSource (source reference));
     LoggerInfo (lit "Generated " ++ referencePath ++ lit "/contracts"
                 ++ lit "/" ++ name reference ++ lit ".sol")] /\
    (includes (lit "{{") (source reference) = false ->
     includes (lit "}}") (source reference) = false ->
     cleanSource (source reference) = source reference).
Proof.
  intros w reference referencePath Hfresh Hquiet Hname Hflat. split.
  - unfold generateDynamicReference. fold referencePath.
    rewrite Hfresh, Hflat. cbn [forEachSource].
    destruct (flattened_key referencePath (name reference) Hname) as [Hdir Hfile].
    rewrite Hdir, Hfile, !Hquiet. cbn [app].
    rewrite <- !app_assoc. reflexivity.
  - intros Hopen Hclose. unfold cleanSource.
    rewrite (replaceFirst_absent _ _ _ Hopen).
    apply replaceFirst_absent. exact Hclose.
Qed.

Lemma flattened_source_writes_one_file_witness :
  generateDynamicReference quietWorld flattenedToken =
  [ExistsSync (lit "./src/references/mainnet/Token/contracts");
   MkdirSync (lit "./src/references/mainnet/Token/contracts");
   WriteFileSync (lit "./src/references/mainnet/Token/contracts/Token.sol")
                 (lit "contract Token { uint256 x; }");
   LoggerInfo (lit "Generated ./src/references/mainnet/Token/contracts/Token.sol")].
Proof.
  pose proof (flattened_source_writes_one_file quietWorld flattenedToken
                eq_refl (fun _ => eq_refl) eq_refl eq_refl) as [Hrun Hsame].
  rewrite Hrun, Hsame by reflexivity. reflexivity.
Defined.






(** A key with parent segments keeps them: only its first ["./"] is taken
    out, so the directory, though its path begins with the reference path,
    names a place outside of it. *)
Example parent_segments_are_kept :
  directoryOf (lit "./src/references/mainnet/Token")
              (lit "../../../../etc/x.sol")
  = lit "./src/references/mainnet/Token/.../../../etc".
Proof. vm_compute. reflexivity. Qed.

(** How the iteration ends: without a failure no call of it was a failing
    one; with a failure the failing call is the last one made. *)
Lemma forEachSource_failure (w : World) (referencePath : JsString)
  (entries : list (JsString * JsString)) :
  Forall (fun c => isLoggerError c = false)
         (fst (forEachSource w referencePath entries)) /\
  match snd (forEachSource w referencePath entries) with
  | None => Forall (fun c => failing w c = false)
                   (fst (forEachSource w referencePath entries))
  | Some error =>
      exists calls c,
        fst (forEachSource w referencePath entries) = calls ++ [c] /\
        Forall (fun c => failing w c = false) calls /\
        isFsWrite c = true /\ throws w c = Some error
  end.
Proof.
  induction entries as [| [sourceKey content] rest [IHlog IH]].
  - split; constructor.
  - cbn [forEachSource].
    set (directory := directoryOf referencePath sourceKey) in *.
    set (filename := filenameOf sourceKey) in *.
    destruct (throws w (MkdirSync directory)) as [error |] eqn:Hmkdir.
    + split; [repeat constructor |].
      exists [], (MkdirSync directory). repeat split; [constructor | exact Hmkdir].
    + assert (Hok : failing w (MkdirSync directory) = false)
        by (unfold failing; rewrite Hmkdir; reflexivity).
      destruct (throws w (WriteFileSync (directory ++ lit "/" ++ filename) content))
        as [error |] eqn:Hwrite.
      * split; [repeat constructor |].
        exists [MkdirSync directory],
          (WriteFileSync (directory ++ lit "/" ++ filename) content).
        repeat split; [repeat constructor; exact Hok | exact Hwrite].
      * assert (Hok' : failing w (WriteFileSync (directory ++ lit "/" ++ filename)
                                    content) = false)
          by (unfold failing; rewrite Hwrite; reflexivity).
        destruct (forEachSource w referencePath rest) as [calls thrown].
        cbn [fst snd] in *. split; [repeat constructor; exact IHlog |].
        destruct thrown as [error |].
        -- destruct IH as [calls0 [c [Hcalls [Hquiet [Hfs Hthrows]]]]].
           exists (MkdirSync directory
                     :: WriteFileSync (directory ++ lit "/" ++ filename) content
                     :: LoggerInfo (lit "Generated " ++ directory ++ lit "/" ++ filename)
                     :: calls0), c.
           rewrite Hcalls. repeat split; try assumption.
           repeat constructor; assumption.
        -- repeat constructor; assumption.
Qed.

(** Where a call with a property sits in a list in which no other call has
    it. *)
Lemma split_at_only {A : Type} (P : A -> bool) (front : list A) (x : A)
  (back : list A) :
  Forall (fun a => P a = false) front ->
  Forall (fun a => P a = false) back ->
  forall before c after,
    front ++ x :: back = before ++ c :: after ->
    P c = true ->
    before = front /\ c = x /\ after = back.
Proof.
  intros Hfront Hback. induction Hfront as [| a front Ha _ IH];
    intros before c after Heq Hc.
  - destruct before as [| b before]; cbn [app] in Heq.
    + inversion Heq. repeat split.
    + inversion Heq as [[Hx Hrest]]. exfalso.
      rewrite Forall_forall in Hback.
      assert (Hin : In c back) by (rewrite Hrest; apply in_elt).
      rewrite (Hback c Hin) in Hc. discriminate Hc.
  - destruct before as [| b before]; cbn [app] in Heq.
    + inversion Heq as [[Hac Hrest]]. subst c. congruence.
    + inversion Heq as [[Hab Hrest]].
      destruct (IH before c after Hrest Hc) as [Hb [Hx Ha']].
      subst. repeat split.
Qed.

(** The end of a run that went through the iteration. *)
Lemma iteration_end (w : World) (contract : JsString) (probe : Call)
  (calls : list Call) (thrown : option JsString) :
  failing w probe = false -> isLoggerError probe = false ->
  Forall (fun c => isLoggerError c = false) calls ->
  match thrown with
  | None => Forall (fun c => failing w c = false) calls
  | Some error =>
      exists calls0 c,
        calls = calls0 ++ [c] /\
        Forall (fun c => failing w c = false) calls0 /\
        isFsWrite c = true /\ throws w c = Some error
  end ->
  let run := probe :: calls ++
             match thrown with
             | Some error => [LoggerError (failedToParse contract error)]
             | None => []
             end in
  (forall before c after error,
      run = before ++ c :: after ->
      isFsWrite c = true -> throws w c = Some error ->
      after = [LoggerError (failedToParse contract error)]) /\
  List.length (filter isLoggerError run) <= 1.
Proof.
  intros Hprobe Hprobe' Hlog Hend run. split.
  - intros before c after error Heq Hc Hthrows.
    assert (Hfail : failing w c = true)
      by (unfold failing; rewrite Hc, Hthrows; reflexivity).
    unfold run in Heq. destruct thrown as [error1 |].
    + destruct Hend as [calls0 [c0 [Hcalls [Hquiet [Hfs Hthrows0]]]]].
      rewrite Hcalls, <- app_assoc in Heq. cbn [app] in Heq.
      assert (Hpos : before = probe :: calls0 /\ c = c0 /\
                     after = [LoggerError (failedToParse contract error1)]).
      { apply (split_at_only (failing w) (probe :: calls0) c0
                 [LoggerError (failedToParse contract error1)]).
        - constructor; [exact Hprobe | exact Hquiet].
        - repeat constructor.
        - exact Heq.
        - exact Hfail. }
      destruct Hpos as [_ [Hc0 Hafter]]. subst c0.
      rewrite Hthrows in Hthrows0. injection Hthrows0 as Herror.
      rewrite Hafter, Herror. reflexivity.
    + exfalso. rewrite app_nil_r in Heq.
      assert (Hin : In c (probe :: calls)) by (rewrite Heq; apply in_elt).
      assert (Hall : Forall (fun c => failing w c = false) (probe :: calls))
        by (constructor; [exact Hprobe | exact Hend]).
      rewrite Forall_forall in Hall. rewrite (Hall c Hin) in Hfail.
      discriminate Hfail.
  - unfold run. rewrite filter_cons, Hprobe', filter_app.
    assert (Hnone : filter isLoggerError calls = []).
    { clear - Hlog. induction Hlog as [| c calls Hc _ IH]; cbn [filter].
      - reflexivity.
      - rewrite Hc. exact IH. }
    rewrite Hnone. destruct thrown; cbn; lia.
Qed.

(** X10. Failures of [generateDynamicReference] stay inside it.  A call to
    the file system that throws is the last one made: what follows it in the
    trace is the one error message, which reports the thrown error as a
    failure to parse the source.  When the contracts directory exists
    nothing is created or written; when the source does not parse nothing is
    created or written either; and no run logs more than one error. *)
Theorem failure_ends_the_run :
  forall (w : World) (reference : DynamicReference),
    let referencePath := referencePathOf (network reference) (name reference) in
    let run := generateDynamicReference w reference in
    (forall before c after error,
        run = before ++ c :: after ->
        isFsWrite c = true -> throws w c = Some error ->
        after = [LoggerError (failedToParse (name reference) error)]) /\
    (existsSync w (referencePath ++ lit "/contracts") = true ->
     Forall (fun c => isFsWrite c = false) run) /\
    (forall error,
        existsSync w (referencePath ++ lit "/contracts") = false ->
        startsWith (lit "{") (cleanSource (source reference))
          && endsWith (lit "}") (cleanSource (source reference)) = true ->
        sourcesOf w (cleanSource (source reference)) = Throws error ->
        run = [ExistsSync (referencePath ++ lit "/contracts");
               LoggerError (failedToParse (name reference) error)]) /\
    List.length (filter isLoggerError run) <= 1.
Proof.
  intros w reference referencePath run.
  assert (Hnowrite : forall (l : list Call) before c after,
             Forall (fun c => isFsWrite c = false) l ->
             l = before ++ c :: after -> isFsWrite c = true -> False).
  { intros l before c after Hall Heq Hc. rewrite Forall_forall in Hall.
    assert (Hin : In c l) by (rewrite Heq; apply in_elt).
    rewrite (Hall c Hin) in Hc. discriminate Hc. }
  unfold run, generateDynamicReference. fold referencePath.
  set (probe := ExistsSync (referencePath ++ lit "/contracts")).
  destruct (existsSync w (referencePath ++ lit "/contracts")) eqn:Hexists.
  { split; [| split; [| split]].
    - intros before c after error Heq Hc _. exfalso.
      apply (Hnowrite _ before c after) in Heq; [exact Heq | | exact Hc].
      repeat constructor.
    - intros _. repeat constructor.
    - intros error Hcontra. discriminate Hcontra.
    - cbn. lia. }
  set (cleaned := cleanSource (source reference)).
  assert (Hiter : forall entries,
             let run :=
               let (calls, thrown) := forEachSource w referencePath entries in
               probe :: calls ++
               match thrown with
               | Some error => [LoggerError (failedToParse (name reference) error)]
               | None => []
               end in
             (forall before c after error,
                 run = before ++ c :: after ->
                 isFsWrite c = true -> throws w c = Some error ->
                 after = [LoggerError (failedToParse (name reference) error)]) /\
             List.length (filter isLoggerError run) <= 1).
  { intros entries.
    pose proof (forEachSource_failure w referencePath entries) as [Hlog Hend].
    destruct (forEachSource w referencePath entries) as [calls thrown].
    cbn [fst snd] in *.
    apply (iteration_end w (name reference) probe calls thrown);
      [reflexivity | reflexivity | exact Hlog | exact Hend]. }
  destruct (startsWith (lit "{") cleaned && endsWith (lit "}") cleaned) eqn:Hjson.
  - destruct (sourcesOf w cleaned) as [entries | error0] eqn:Hparse.
    + destruct (Hiter entries) as [Hlast Hone].
      split; [exact Hlast | split; [discriminate | split; [| exact Hone]]].
      intros error _ _ Hcontra. discriminate Hcontra.
    + split; [| split; [discriminate | split]].
      * intros before c after error Heq Hc _. exfalso.
        apply (Hnowrite _ before c after) in Heq; [exact Heq | | exact Hc].
        repeat constructor.
      * intros error _ _ Heq. inversion Heq. reflexivity.
      * cbn. lia.
  - destruct (Hiter [(lit "contracts/" ++ name reference ++ lit ".sol", cleaned)])
      as [Hlast Hone].
    split; [exact Hlast | split; [discriminate | split; [| exact Hone]]].
    intros error _ Hcontra. discriminate Hcontra.
Qed.

(** On a disk that refuses the write, the directory is created, the write is
    attempted and the error is reported as a failure to parse. *)
Example refused_write_is_reported :
  generateDynamicReference readOnlyWorld flattenedToken =
  [ExistsSync (lit "./src/references/mainnet/Token/contracts");
   MkdirSync (lit "./src/references/mainnet/Token/contracts");
   WriteFileSync (lit "./src/references/mainnet/Token/contracts/Token.sol")
                 (lit "contract Token { uint256 x; }");
   LoggerError (lit "Failed to parse the source code for Token: Error: EROFS")].
Proof. vm_compute. reflexivity. Qed.

(* --------------------------------------------------------------------- *)
(** *** generateStaticReference *)

(** Case analysis over the branches of a run. *)
Ltac static_cases w reference :=
  unfold generateStaticReference, andThen, fsCall, done;
  repeat match goal with
         | |- context [staticExists w ?p] => destruct (staticExists w p) eqn:?
         | |- context [staticThrows w ?c] => destruct (staticThrows w c) eqn:?
         | |- context [address reference] => destruct (address reference) eqn:?
         | |- context [bytecode reference] => destruct (bytecode reference) eqn:?
         | |- context [truthy ?a] => destruct (truthy a) eqn:?
         | |- context [codeAt w ?r ?a] => destruct (codeAt w r a) eqn:?
         | |- context [contractInterface w reference ?k ?c] =>
             destruct (contractInterface w reference k c) eqn:?
         end.

(** X11. [generateStaticReference] writes at most one file, [index.ts] under
    the reference path, and never over an existing one: when the file exists
    nothing is written and the node is not asked for code.  The write is the
    last thing that can fail: a run whose promise is rejected has written
    nothing, and a run that fulfils either found the file or wrote it. *)
Theorem static_reference_is_written_once :
  forall (w : StaticWorld) (reference : StaticReference),
    let file := referencePathOf (staticNetwork reference) (staticName reference)
                ++ lit "/index.ts" in
    let calls := fst (generateStaticReference w reference) in
    let result := snd (generateStaticReference w reference) in
    (filter isStaticWrite calls = [] \/
     exists text, filter isStaticWrite calls = [SWriteFileSync file text]) /\
    (staticExists w file = true ->
     filter isStaticWrite calls = [] /\ filter isGetCode calls = []) /\
    (forall error, result = Throws error ->
       forall path text, In (SWriteFileSync path text) calls ->
                         staticThrows w (SWriteFileSync path text) = Some error) /\
    (result = Ok tt ->
     staticExists w file = true \/
     exists text, In (SWriteFileSync file text) calls /\
                  staticThrows w (SWriteFileSync file text) = None).
Proof.
  intros w reference file calls result.
  unfold calls, result, file. clear calls result file.
  split; [| split; [| split]].
  - static_cases w reference; cbn; eauto.
  - intros Hexists. unfold generateStaticReference. cbv zeta.
    rewrite Hexists. static_cases w reference; cbn; auto.
  - intros error. static_cases w reference; cbn;
      intros Hresult path text Hin; try discriminate Hresult;
      repeat (destruct Hin as [Hin | Hin]; try discriminate Hin);
      try contradiction;
      inversion Hin; subst; inversion Hresult; subst; assumption.
  - static_cases w reference; cbn; intros Hresult; try discriminate Hresult;
      auto; right; eexists; (split; [| eassumption]); cbn; auto 10.
Qed.

Lemma JsString_eqb_In (n : JsString) (known : list JsString) :
  In n known -> existsb (JsString_eqb n) known = true.
Proof.
  intros Hin. apply existsb_exists. exists n. split; [exact Hin |].
  unfold JsString_eqb. destruct (list_eq_dec ascii_dec n n); congruence.
Qed.

Lemma last_suffix (prefix suffix : JsString) (d : ascii) :
  suffix <> [] -> last (prefix ++ suffix) d = last suffix d.
Proof.
  intros Hsuffix. induction prefix as [| c prefix IH].
  - reflexivity.
  - cbn [app]. rewrite <- IH.
    destruct (prefix ++ suffix) eqn:Heq; [| reflexivity].
    apply app_eq_nil in Heq. destruct Heq as [_ Heq]. contradiction.
Qed.

(** The names of the generated module are pairwise different: a constant
    differs from another by its suffix, and from an import by its last
    letter. *)
Ltac name_clash H :=
  first
    [ apply app_inv_head in H; vm_compute in H; discriminate H
    | apply (f_equal (fun l => last l " "%char)) in H;
      rewrite ?last_suffix in H by (vm_compute; discriminate);
      vm_compute in H; discriminate H ].

Ltac names_differ :=
  repeat constructor;
  cbn [In]; intros Hclash;
  repeat (destruct Hclash as [Hclash | Hclash]; [name_clash Hclash |]);
  exact Hclash.

Lemma contractInterface_closed (w : StaticWorld) (reference : StaticReference)
  (constant : JsString) (code : option JsString) (text : list Declaration) :
  contractInterface w reference constant code = Ok text ->
  closedUnder [] text = true /\ NoDup (flat_map provides text).
Proof.
  unfold contractInterface.
  destruct (truthy (abi reference)) eqn:Habi;
    [destruct (eventTopicsOf w (abi reference)) as [topics | error] |];
    intros Htext; try discriminate Htext;
    injection Htext as Htext; subst text;
    destruct (address reference) as [a |];
    destruct code as [c |]; try destruct (truthy c);
    destruct (deployedBytecode reference) as [dc |]; try destruct (truthy dc);
    (split;
     [ cbn [app closedUnder needs provides forallb andb];
       rewrite ?JsString_eqb_In by (cbn [In]; auto 12); reflexivity
     | cbn [app flat_map provides]; names_differ ]).
Qed.

(** X12. The text [generateStaticReference] writes refers only to what it
    declares: [Contract] or [utils] is imported whenever it is used, the
    [_ADDRESS] and [_ABI] constants are declared before the [_CONTRACT] or
    [_INTERFACE] constant that uses them, and no name is declared twice. *)
Theorem generated_module_is_closed :
  forall (w : StaticWorld) (reference : StaticReference)
         (path : JsString) (text : list Declaration),
    In (SWriteFileSync path text) (fst (generateStaticReference w reference)) ->
    closedUnder [] text = true /\ NoDup (flat_map provides text).
Proof.
  intros w reference path text.
  assert (Hfrom : In (SWriteFileSync path text)
                     (fst (generateStaticReference w reference)) ->
                  exists code,
                    contractInterface w reference
                      (bigName (staticName reference)) code = Ok text).
  { static_cases w reference; cbn; intros Hin;
      repeat (destruct Hin as [Hin | Hin]; try discriminate Hin);
      try contradiction;
      injection Hin as _ Htext; subst; eexists; eassumption. }
  intros Hin. destruct (Hfrom Hin) as [code Hcode].
  apply (contractInterface_closed w reference _ code text Hcode).
Qed.

Lemma generated_module_is_closed_witness :
  closedUnder []
    [Header (lit "Token") (lit "Contract") (lit "TOKEN");
     AbiConstant (lit "TOKEN") (lit "[]");
     BytecodeConstant (lit "TOKEN") (lit "0x6080");
     AddressConstant (lit "TOKEN") (lit "0xA11");
     ContractConstants (lit "TOKEN");
     EventTopicsConstant (lit "TOKEN") (lit "{}")] = true.
Proof.
  refine (proj1 (generated_module_is_closed quietStaticWorld deployedToken
                   (lit "./src/references/mainnet/Token/index.ts") _ _)).
  vm_compute. do 4 right. left. reflexivity.
Defined.

Lemma contractInterface_bytecode (w : StaticWorld) (reference : StaticReference)
  (constant : JsString) (code : option JsString) (text : list Declaration) :
  contractInterface w reference constant code = Ok text ->
  forall constant' c,
    In (BytecodeConstant constant' c) text ->
    code = Some c /\ truthy c = true /\ constant' = constant.
Proof.
  unfold contractInterface.
  destruct (truthy (abi reference)) eqn:Habi;
    [destruct (eventTopicsOf w (abi reference)) as [topics | error] |];
    intros Htext; try discriminate Htext;
    injection Htext as Htext; subst text;
    destruct (address reference) as [a |];
    destruct code as [c0 |]; try destruct (truthy c0) eqn:Hc0;
    destruct (deployedBytecode reference) as [dc |]; try destruct (truthy dc);
    cbn [app In]; intros constant' c Hin;
    repeat (destruct Hin as [Hin | Hin]; try discriminate Hin);
    try contradiction;
    injection Hin as Hconstant Hcode; subst; auto.
Qed.

(** X13. The node is asked for the code of the contract only when the
    reference gives a non-empty address and no byte code, and only after
    the file was found missing; and the byte code in the written text is
    never empty: it is the byte code of the reference when that was given,
    and the answer of the node otherwise. *)
Theorem bytecode_is_fetched_only_when_missing :
  forall (w : StaticWorld) (reference : StaticReference),
    let referencePath :=
      referencePathOf (staticNetwork reference) (staticName reference) in
    let calls := fst (generateStaticReference w reference) in
    (forall rpcUrl a,
        In (SGetCode rpcUrl a) calls ->
        address reference = Some a /\ truthy a = true /\
        bytecode reference = None /\
        rpcUrl = rpc (staticNetwork reference) /\
        staticExists w (referencePath ++ lit "/index.ts") = false) /\
    (forall path text constant code,
        In (SWriteFileSync path text) calls ->
        In (BytecodeConstant constant code) text ->
        truthy code = true /\
        (bytecode reference = Some code \/
         bytecode reference = None /\
         exists a, address reference = Some a /\
                   codeAt w (rpc (staticNetwork reference)) a = Ok code)).
Proof.
  intros w reference referencePath calls. unfold calls, referencePath.
  clear calls referencePath. split.
  - static_cases w reference; cbn; intros rpcUrl a0 Hin;
      repeat (destruct Hin as [Hin | Hin]; try discriminate Hin);
      try contradiction;
      injection Hin as Hrpc Ha; subst; auto.
  - static_cases w reference; cbn; intros path text constant code Hin Hcode;
      repeat (destruct Hin as [Hin | Hin]; try discriminate Hin);
      try contradiction;
      injection Hin as _ Htext; subst;
      match goal with
      | H : contractInterface _ _ _ _ = Ok _ |- _ =>
          destruct (contractInterface_bytecode _ _ _ _ _ H _ _ Hcode)
            as [Hgiven [Htruthy _]]
      end;
      (split; [exact Htruthy |]);
      try discriminate Hgiven;
      injection Hgiven as Hgiven; subst; eauto.
Qed.

End ReferencesFacts.
